(** * Unity Clutter Cutter: the analysis engine of [find_unused.py]

    A shallow embedding of the functions of [find_unused.py] that locate the
    [Assets] directory, build the index of candidate assets, collect the
    files to search and look one identifier up in them, together with the
    properties of the specification that these functions decide.

    Conventions of the model.
    - A path is the list of its components below the filesystem root;
      [[]] is the root itself.  The directory given on the command line is
      taken in absolute, normalised form, so that [Path.resolve] returns it
      unchanged and [os.path.join root name] is [root ++ [name]].
    - The filesystem is a tree of directories and files, the same during
      the whole run; the order of the entries of a directory is the order in
      which [os.walk] lists them.  There are no symbolic links.
    - A component of a path names an entry of a directory.  The names [""],
      ["."] and [".."], which the system resolves to a directory, are no
      entries: a path that ends in one of them does not resolve here.  The
      program builds such a path only for a sidecar called [.meta],
      [..meta] or [...meta], and tests it only with
      [exists(p) and not isdir(p)], which is false either way.
    - What [open] and [read] do to a file is part of the file: whether it can
      be opened, and the text its bytes decode to under UTF-8, if any.
    - A Python [str] is a [string]; [str.lower] acts on the letters A-Z.
    - A [dict] is a [gmap]; the order of its items is not the order of
      insertion, which is of no account since the results of the searches
      are taken in the order of completion.
    - Console output (banner, progress bar, diagnostics, table) is left out. *)

From stdpp Require Import gmap strings list fin_maps.
From Stdlib Require Import Ascii String.

Set Warnings "-register-all".

Local Open Scope string_scope.
Local Open Scope list_scope.

(** ** Text primitives of Python used by the program *)

Module Text.

(** [s.startswith(pre)] *)
Fixpoint startswith (s pre : string) {struct pre} : bool :=
  match pre with
  | EmptyString => true
  | String a pre' =>
      match s with
      | EmptyString => false
      | String b s' => Ascii.eqb a b && startswith s' pre'
      end
  end.

(** [s.endswith(suf)]: [s] is [suf], or what follows its first character
    ends with [suf]. *)
Fixpoint endswith (s suf : string) : bool :=
  String.eqb s suf ||
  match s with
  | EmptyString => false
  | String _ s' => endswith s' suf
  end.

(** [sub in s] *)
Fixpoint contains (sub s : string) : bool :=
  startswith s sub ||
  match s with
  | EmptyString => false
  | String _ s' => contains sub s'
  end.

(** [s[:-n]] for [n > 0]: all but the last [n] characters. *)
Definition drop_last (n : nat) (s : string) : string :=
  String.substring 0 (String.length s - n) s.

Definition lower_ascii (c : ascii) : ascii :=
  let n := nat_of_ascii c in
  if (65 <=? n)%nat && (n <=? 90)%nat then ascii_of_nat (n + 32) else c.

(** [s.lower()] *)
Fixpoint lower (s : string) : string :=
  match s with
  | EmptyString => EmptyString
  | String c s' => String (lower_ascii c) (lower s')
  end.

(** The character class [[a-f0-9]]. *)
Definition is_guid_char (c : ascii) : bool :=
  let n := nat_of_ascii c in
  ((97 <=? n)%nat && (n <=? 102)%nat) || ((48 <=? n)%nat && (n <=? 57)%nat).

Fixpoint all_guid_chars (s : string) : bool :=
  match s with
  | EmptyString => true
  | String c s' => is_guid_char c && all_guid_chars s'
  end.

(** The pattern ["guid: ([a-f0-9]{32})"] matched at the start of [s]; the
    value is group 1. *)
Definition match_guid_here (s : string) : option string :=
  if startswith s "guid: " then
    let tok := String.substring 6 32 s in
    if (String.length tok =? 32)%nat && all_guid_chars tok then Some tok else None
  else None.

(** [re.search(r"guid: ([a-f0-9]{32})", s)]: the match at the leftmost
    position where the pattern matches, as [match.group(1)]. *)
Fixpoint re_search_guid (s : string) : option string :=
  match match_guid_here s with
  | Some tok => Some tok
  | None =>
      match s with
      | EmptyString => None
      | String _ s' => re_search_guid s'
      end
  end.

End Text.

(** ** The filesystem *)

Inductive exn : Type :=
  | FileNotFoundError
  | IsADirectoryError
  | PermissionError
  | UnicodeDecodeError.

Inductive result (A : Type) : Type :=
  | Ok (a : A)
  | Raise (e : exn).
Arguments Ok {A} a.
Arguments Raise {A} e.

(** A regular file: [can_open] says whether [open(path, "r")] succeeds,
    [utf8] is the text that [f.read()] returns, [None] when the bytes are
    not valid UTF-8. *)
Record fdata : Type := mk_fdata { can_open : bool; utf8 : option string }.

Inductive node : Type :=
  | File (d : fdata)
  | Dir (entries : list (string * node)).

Definition path : Type := list string.

Fixpoint entry (name : string) (es : list (string * node)) : option node :=
  match es with
  | [] => None
  | (n, x) :: es' => if String.eqb n name then Some x else entry name es'
  end.

Fixpoint lookup_node (n : node) (p : path) : option node :=
  match p with
  | [] => Some n
  | c :: p' =>
      match n with
      | File _ => None
      | Dir es =>
          match entry c es with
          | Some x => lookup_node x p'
          | None => None
          end
      end
  end.

Definition is_dir_node (n : node) : bool :=
  match n with Dir _ => true | File _ => false end.

(** [os.path.exists], [os.path.isdir] and [Path.is_dir] *)
Definition os_path_exists (fs : node) (p : path) : bool :=
  match lookup_node fs p with Some _ => true | None => false end.

Definition os_path_isdir (fs : node) (p : path) : bool :=
  match lookup_node fs p with Some x => is_dir_node x | None => false end.

Definition dirnames (es : list (string * node)) : list string :=
  fst <$> filter (λ e, is_dir_node (snd e) = true) es.

Definition filenames (es : list (string * node)) : list string :=
  fst <$> filter (λ e, is_dir_node (snd e) = false) es.

(** [os.walk] below a node, top-down: the directory itself, then the walk of
    each of its subdirectories in turn. *)
Fixpoint walk_node (top : path) (n : node) : list (path * list string * list string) :=
  match n with
  | File _ => []
  | Dir es =>
      (top, dirnames es, filenames es) ::
      flat_map (λ e, walk_node (top ++ [fst e]) (snd e)) es
  end.

(** [os.walk(top)]; a [top] that is no directory yields nothing. *)
Definition os_walk (fs : node) (top : path) : list (path * list string * list string) :=
  match lookup_node fs top with
  | Some n => walk_node top n
  | None => []
  end.

(** [open(p, "r", encoding="utf-8")] and [f.read()] *)
Definition open_text (fs : node) (p : path) : result fdata :=
  match lookup_node fs p with
  | None => Raise FileNotFoundError
  | Some (Dir _) => Raise IsADirectoryError
  | Some (File d) => if can_open d then Ok d else Raise PermissionError
  end.

Definition read_all (d : fdata) : result string :=
  match utf8 d with
  | Some s => Ok s
  | None => Raise UnicodeDecodeError
  end.

(** ** The program *)

(** File extensions to check for references. *)
Definition DEFAULT_EXTENSIONS_TO_CHECK : list string :=
  [".asset"; ".prefab"; ".mat"; ".unity"; ".shadergraph"; ".asmdef";
   ".controller"; ".overridecontroller"; ".vfx"].

(** The loop of [find_assets_dir].  The loop variable [current] is kept
    innermost component first: [current.parent] is then the tail, and
    [current.parent != current] holds exactly of a path that is not the
    root. *)
Fixpoint find_assets_dir_from (fs : node) (rcurrent : list string) : result path :=
  match rcurrent with
  | [] => Raise FileNotFoundError
  | _ :: rparent =>
      if os_path_isdir fs (rev rcurrent ++ ["Assets"])
      then Ok (rev rcurrent ++ ["Assets"])
      else find_assets_dir_from fs rparent
  end.

Definition find_assets_dir (fs : node) (start_path : path) : result path :=
  find_assets_dir_from fs (rev start_path).

(** [get_guid_from_meta]: an exception of [open] or [read] is caught (and
    printed), and the function then returns [None]. *)
Definition get_guid_from_meta (fs : node) (meta_file_path : path) : option string :=
  match open_text fs meta_file_path with
  | Raise _ => None
  | Ok f =>
      match read_all f with
      | Raise _ => None
      | Ok content => Text.re_search_guid content
      end
  end.

(** The body of the inner loop of [find_assets_to_check]. *)
Definition check_meta (fs : node) (root : path)
    (assets_to_check : gmap string path) (file : string) : gmap string path :=
  if Text.endswith file ".meta" then
    let asset_path := root ++ [Text.drop_last 5 file] in
    if os_path_exists fs asset_path && negb (os_path_isdir fs asset_path) then
      match get_guid_from_meta fs (root ++ [file]) with
      | Some guid => <[guid := asset_path]> assets_to_check
      | None => assets_to_check
      end
    else assets_to_check
  else assets_to_check.

Definition check_dir (fs : node) (assets_to_check : gmap string path)
    (w : path * list string * list string) : gmap string path :=
  let '(root, _, files) := w in
  fold_left (check_meta fs root) files assets_to_check.

Definition find_assets_to_check (fs : node) (dir_path : path) : gmap string path :=
  fold_left (check_dir fs) (os_walk fs dir_path) ∅.

(** The body of the inner loop of [collect_searchable_files]: the file is
    opened, and not read. *)
Definition collect_file (fs : node) (lowercase_extensions : list string) (root : path)
    (searchable_files : list path) (file : string) : list path :=
  if existsb (λ ext, Text.endswith (Text.lower file) ext) lowercase_extensions then
    let file_path := root ++ [file] in
    match open_text fs file_path with
    | Ok _ => searchable_files ++ [file_path]
    | Raise _ => searchable_files
    end
  else searchable_files.

Definition collect_dir (fs : node) (lowercase_extensions : list string)
    (searchable_files : list path) (w : path * list string * list string) : list path :=
  let '(root, _, files) := w in
  fold_left (collect_file fs lowercase_extensions root) files searchable_files.

Definition collect_searchable_files (fs : node) (assets_dir : path)
    (extensions_to_check : list string) : list path :=
  let lowercase_extensions := Text.lower <$> extensions_to_check in
  fold_left (collect_dir fs lowercase_extensions) (os_walk fs assets_dir) [].

(** The loop of [find_references_to_guid], with the list of the files it
    opened, in order. *)
Fixpoint search_files (fs : node) (guid : string) (searchable_files : list path)
    : bool * list path :=
  match searchable_files with
  | [] => (false, [])
  | file_path :: rest =>
      let next := (fst (search_files fs guid rest),
                   file_path :: snd (search_files fs guid rest)) in
      match open_text fs file_path with
      | Raise _ => next
      | Ok f =>
          match read_all f with
          | Raise _ => next
          | Ok content =>
              if Text.contains guid content then (true, [file_path]) else next
          end
      end
  end.

Definition find_references_to_guid_traced (fs : node) (args : string * list path * path)
    : (path * bool) * list path :=
  let '(guid, searchable_files, asset_path) := args in
  ((asset_path, fst (search_files fs guid searchable_files)),
   snd (search_files fs guid searchable_files)).

Definition find_references_to_guid (fs : node) (args : string * list path * path)
    : path * bool :=
  fst (find_references_to_guid_traced fs args).

(** [main], from the arguments to the list [unused_assets]. *)
Record cli_args : Type :=
  mk_args { arg_dir : path; arg_processes : Z; arg_extensions : list string }.

Inductive outcome : Type :=
  | InvalidProcesses
  | InvalidDirectory
  | RootNotFound
  | Report (unused_assets : list path).

Definition search_args (assets_to_check : gmap string path) (searchable_files : list path)
    : list (string * list path * path) :=
  (λ item, (fst item, searchable_files, snd item)) <$> map_to_list assets_to_check.

(** The loop over the results: the asset of each result that is not found is
    appended. *)
Definition unused_of (results : list (path * bool)) : list path :=
  fold_left (λ unused_assets r, if negb (snd r) then unused_assets ++ [fst r] else unused_assets)
            results [].

(** [pool.imap_unordered f args] delivers the results of [f] on [args] in
    the order in which the workers complete. *)
Definition imap_unordered {A B : Type} (f : A → B) (args : list A) (results : list B) : Prop :=
  f <$> args ≡ₚ results.

Definition main (fs : node) (args : cli_args) (out : outcome) : Prop :=
  if ((arg_processes args <? 1) || (32 <? arg_processes args))%Z then out = InvalidProcesses
  else if negb (os_path_isdir fs (arg_dir args)) then out = InvalidDirectory
  else
    match find_assets_dir fs (arg_dir args) with
    | Raise _ => out = RootNotFound
    | Ok assets_dir =>
        let assets_to_check := find_assets_to_check fs (arg_dir args) in
        let searchable_files := collect_searchable_files fs assets_dir (arg_extensions args) in
        ∃ results,
          imap_unordered (find_references_to_guid fs)
            (search_args assets_to_check searchable_files) results
          ∧ out = Report (unused_of results)
    end.

(** The run in which the results arrive in the order of submission. *)
Definition main_in_order (fs : node) (args : cli_args) : outcome :=
  if ((arg_processes args <? 1) || (32 <? arg_processes args))%Z then InvalidProcesses
  else if negb (os_path_isdir fs (arg_dir args)) then InvalidDirectory
  else
    match find_assets_dir fs (arg_dir args) with
    | Raise _ => RootNotFound
    | Ok assets_dir =>
        let assets_to_check := find_assets_to_check fs (arg_dir args) in
        let searchable_files := collect_searchable_files fs assets_dir (arg_extensions args) in
        Report (unused_of (find_references_to_guid fs <$>
                  search_args assets_to_check searchable_files))
    end.

(** ** Sample project trees *)

Definition text_file (s : string) : node := File (mk_fdata true (Some s)).
Definition binary_file : node := File (mk_fdata true None).

Definition guid_a : string := "aaaaaaaaaaaaaaaaaaaaaaaaaaaaaaaa".
Definition guid_b : string := "bbbbbbbbbbbbbbbbbbbbbbbbbbbbbbbb".

Definition nl : string := String (ascii_of_nat 10) EmptyString.

(** The text of a sidecar that declares [guid]. *)
Definition meta_text (guid : string) : string :=
  "fileFormatVersion: 2" +:+ nl +:+ "guid: " +:+ guid +:+ nl.

(** Scenario A of the specification, in [/proj]. *)
Definition scenario_A : node :=
  Dir [("proj", Dir [("Assets", Dir
    [("foo.prefab", text_file ("m_Material: {guid: " +:+ guid_b +:+ "}" +:+ nl));
     ("foo.prefab.meta", text_file (meta_text guid_a));
     ("bar.mat", text_file "Material");
     ("bar.mat.meta", text_file (meta_text guid_b))])])].

Definition assets_A : path := ["proj"; "Assets"].
Definition foo_prefab : path := ["proj"; "Assets"; "foo.prefab"].
Definition bar_mat : path := ["proj"; "Assets"; "bar.mat"].
Definition args_A : cli_args := mk_args assets_A 8 DEFAULT_EXTENSIONS_TO_CHECK.

(** Two assets that nothing refers to. *)
Definition two_unused : node :=
  Dir [("proj", Dir [("Assets", Dir
    [("x.mat", text_file "Material x");
     ("x.mat.meta", text_file (meta_text guid_a));
     ("y.mat", text_file "Material y");
     ("y.mat.meta", text_file (meta_text guid_b))])])].

Definition x_mat : path := ["proj"; "Assets"; "x.mat"].
Definition y_mat : path := ["proj"; "Assets"; "y.mat"].

(** A tree with two sidecars that declare the same identifier. *)
Definition duplicate_guids : node :=
  Dir [("proj", Dir [("Assets", Dir
    [("a.mat", text_file "Material a");
     ("a.mat.meta", text_file (meta_text guid_a));
     ("b.mat", text_file "Material b");
     ("b.mat.meta", text_file (meta_text guid_a))])])].

Definition a_mat : path := ["proj"; "Assets"; "a.mat"].
Definition b_mat : path := ["proj"; "Assets"; "b.mat"].

(** A file with a corpus extension whose bytes are not UTF-8. *)
Definition binary_asset : node :=
  Dir [("proj", Dir [("Assets", Dir [("lightmap.asset", binary_file)])])].

Definition lightmap : path := ["proj"; "Assets"; "lightmap.asset"].

(** The same file in front of the files of scenario A. *)
Definition mixed_corpus : node :=
  Dir [("proj", Dir [("Assets", Dir
    [("lightmap.asset", binary_file);
     ("foo.prefab", text_file ("m_Material: {guid: " +:+ guid_b +:+ "}" +:+ nl));
     ("bar.mat", text_file "Material");
     ("bar.mat.meta", text_file (meta_text guid_b))])])].

(** A project that sits directly in the filesystem root. *)
Definition project_in_root : node :=
  Dir [("Assets", Dir [("foo.prefab", text_file "Prefab")]);
       ("home", Dir [])].

(** A candidate whose own text holds its identifier, outside of [Assets]
    and inside. *)
Definition asset_outside_assets : node :=
  Dir [("proj", Dir
    [("Assets", Dir []);
     ("Extra", Dir
        [("self.mat", text_file ("self: {guid: " +:+ guid_a +:+ "}" +:+ nl));
         ("self.mat.meta", text_file (meta_text guid_a))])])].

Definition asset_inside_assets : node :=
  Dir [("proj", Dir
    [("Assets", Dir
        [("self.mat", text_file ("self: {guid: " +:+ guid_a +:+ "}" +:+ nl));
         ("self.mat.meta", text_file (meta_text guid_a))])])].

Definition self_outside : path := ["proj"; "Extra"; "self.mat"].
Definition self_inside : path := ["proj"; "Assets"; "self.mat"].
Definition args_proj : cli_args := mk_args ["proj"] 8 DEFAULT_EXTENSIONS_TO_CHECK.

(** ** What the properties speak about *)

(** [sub] occurs in [s] as a substring. *)
Definition occurs (sub s : string) : Prop :=
  ∃ pre post, s = pre +:+ sub +:+ post.

(** The pattern [guid: <32 characters of a-f0-9>] matches [content] at
    offset [i], with the token [tok]. *)
Definition guid_match_at (content : string) (i : nat) (tok : string) : Prop :=
  ∃ pre post,
    content = pre +:+ "guid: " +:+ tok +:+ post
    ∧ String.length pre = i
    ∧ String.length tok = 32
    ∧ Text.all_guid_chars tok = true.

Definition first_guid_match (content : string) (i : nat) (tok : string) : Prop :=
  guid_match_at content i tok
  ∧ ∀ j tok', j < i → ¬ guid_match_at content j tok'.

(** The corpus file [f] can be read and its text holds [guid]. *)
Definition mentions (fs : node) (guid : string) (f : path) : Prop :=
  ∃ d content, open_text fs f = Ok d ∧ read_all d = Ok content ∧ occurs guid content.

(** Opening or reading [f] raises. *)
Definition unreadable (fs : node) (f : path) : Prop :=
  (∃ e, open_text fs f = Raise e)
  ∨ (∃ d e, open_text fs f = Ok d ∧ read_all d = Raise e).

(** The files that the two nested loops over [os.walk(dir_path)] go through,
    in order, each with the directory it is listed in. *)
Definition enumerated (fs : node) (dir_path : path) : list (path * string) :=
  flat_map (λ w, (λ file, (fst (fst w), file)) <$> snd w) (os_walk fs dir_path).

(** What the loop body of [find_assets_to_check] records for a file: the
    identifier and the asset, or nothing. *)
Definition recorded (fs : node) (root : path) (file : string) : option (string * path) :=
  if Text.endswith file ".meta" then
    let asset_path := root ++ [Text.drop_last 5 file] in
    if os_path_exists fs asset_path && negb (os_path_isdir fs asset_path) then
      match get_guid_from_meta fs (root ++ [file]) with
      | Some guid => Some (guid, asset_path)
      | None => None
      end
    else None
  else None.

(** One turn of the inner loop of [find_assets_to_check], and one of
    [collect_searchable_files], on a file of the enumeration. *)
Definition record_step (fs : node) (acc : gmap string path) (rf : path * string)
    : gmap string path :=
  check_meta fs (fst rf) acc (snd rf).

Definition collect_step (fs : node) (lowercase_extensions : list string)
    (acc : list path) (rf : path * string) : list path :=
  collect_file fs lowercase_extensions (fst rf) acc (snd rf).

(** The test that the loop body of [find_references_to_guid] makes. *)
Definition mentions_b (fs : node) (guid : string) (f : path) : bool :=
  match open_text fs f with
  | Raise _ => false
  | Ok d =>
      match read_all d with
      | Raise _ => false
      | Ok content => Text.contains guid content
      end
  end.

(** The file name of [p] ends, case-insensitively, with one of the
    extensions. *)
Definition has_extension (extensions_to_check : list string) (p : path) : bool :=
  match last p with
  | Some file =>
      existsb (λ ext, Text.endswith (Text.lower file) ext)
              (Text.lower <$> extensions_to_check)
  | None => false
  end.

(** No directory of the tree lists a name twice. *)
Fixpoint names_unique (n : node) : bool :=
  match n with
  | File _ => true
  | Dir es =>
      bool_decide (NoDup (fst <$> es)) && forallb (λ e, names_unique (snd e)) es
  end.

(** The files that a walk lists, each with its directory. *)
Definition files_of_walk (l : list (path * list string * list string))
    : list (path * string) :=
  flat_map (λ w, (λ file, (fst (fst w), file)) <$> snd w) l.

(** The test that the loop body of [collect_searchable_files] makes on a
    file of the enumeration. *)
Definition selected (fs : node) (lowercase_extensions : list string)
    (rf : path * string) : bool :=
  existsb (λ ext, Text.endswith (Text.lower (snd rf)) ext) lowercase_extensions
  && match open_text fs (fst rf ++ [snd rf]) with Ok _ => true | Raise _ => false end.

(** ** Text lemmas *)

Section text_lemmas.

#[local] Arguments String.append !_ _ / : simpl nomatch.

Lemma append_assoc (a b c : string) : (a +:+ b) +:+ c = a +:+ b +:+ c.
Proof. induction a as [|x a IH]; simpl; [done | by rewrite IH]. Qed.

Lemma append_empty_r (a : string) : a +:+ "" = a.
Proof. induction a as [|x a IH]; simpl; [done | by rewrite IH]. Qed.

Lemma length_append (a b : string) :
  String.length (a +:+ b) = String.length a + String.length b.
Proof. induction a as [|x a IH]; simpl; [done | by rewrite IH]. Qed.

Lemma append_inj_l (a b c : string) : a +:+ b = a +:+ c → b = c.
Proof. induction a as [|x a IH]; simpl; [done | intros [= H]; auto]. Qed.

Lemma append_inj_len (a a' b b' : string) :
  String.length a = String.length a' → a +:+ b = a' +:+ b' → a = a' ∧ b = b'.
Proof.
  revert a'. induction a as [|x a IH]; intros [|y a']; simpl; try done.
  intros [= Hl] [= -> H]. destruct (IH _ Hl H) as [-> ->]. done.
Qed.

Lemma append_inj_r (a a' b : string) : a +:+ b = a' +:+ b → a = a'.
Proof.
  intros H. apply (append_inj_len a a' b b); [|done].
  apply (f_equal String.length) in H. rewrite !length_append in H. lia.
Qed.

Lemma startswith_spec (s pre : string) :
  Text.startswith s pre = true ↔ ∃ t, s = pre +:+ t.
Proof.
  revert s. induction pre as [|a pre IH]; intros s; simpl.
  - split; [intros _; by exists s | done].
  - destruct s as [|b s].
    + split; [done | intros [t [=]]].
    + rewrite andb_true_iff, Ascii.eqb_eq, IH. split.
      * intros [-> [t ->]]. by exists t.
      * intros [t [= -> ->]]. eauto.
Qed.

Lemma contains_spec (sub s : string) :
  Text.contains sub s = true ↔ occurs sub s.
Proof.
  unfold occurs. induction s as [|c s IH]; simpl; rewrite orb_true_iff, startswith_spec.
  - split.
    + intros [[t Ht]|?]; [|done]. exists "", t. done.
    + intros ([|? ?] & post & H); simpl in H; [|done]. left. eauto.
  - rewrite IH. split.
    + intros [[t Ht]|(pre & post & ->)].
      * exists "", t. done.
      * exists (String c pre), post. done.
    + intros ([|x pre] & post & H); simpl in H.
      * left. eauto.
      * injection H as -> ->. right. eauto.
Qed.

Lemma endswith_unfold (s suf : string) :
  Text.endswith s suf =
  String.eqb s suf ||
  match s with EmptyString => false | String _ s' => Text.endswith s' suf end.
Proof. by destruct s. Qed.

Lemma endswith_spec (s suf : string) :
  Text.endswith s suf = true ↔ ∃ pre, s = pre +:+ suf.
Proof.
  induction s as [|c s IH]; rewrite endswith_unfold, orb_true_iff, String.eqb_eq.
  - split.
    + intros [<-|?]; [|done]. by exists "".
    + intros ([|? ?] & H); simpl in H; [auto | done].
  - rewrite IH. split.
    + intros [<-|[pre ->]]; [by exists "" | by exists (String c pre)].
    + intros ([|x pre] & H); simpl in H; [auto|].
      injection H as -> ->. right. eauto.
Qed.

Lemma substring_0_append (a b : string) :
  String.substring 0 (String.length a) (a +:+ b) = a.
Proof. induction a as [|x a IH]; simpl; [by destruct b | by rewrite IH]. Qed.

Lemma drop_last_append (n : nat) (stem suf : string) :
  String.length suf = n → Text.drop_last n (stem +:+ suf) = stem.
Proof.
  intros <-. unfold Text.drop_last. rewrite length_append.
  replace (String.length stem + String.length suf - String.length suf)
    with (String.length stem) by lia.
  apply substring_0_append.
Qed.

(** A sidecar name is its stem followed by [.meta]. *)
Lemma endswith_meta_stem (file : string) :
  Text.endswith file ".meta" = true → file = Text.drop_last 5 file +:+ ".meta".
Proof.
  intros [pre ->]%endswith_spec. by rewrite drop_last_append.
Qed.

Lemma substring_0_split (n : nat) (t : string) :
  String.length (String.substring 0 n t) = n →
  ∃ post, t = String.substring 0 n t +:+ post.
Proof.
  revert t. induction n as [|n IH]; intros t.
  - intros _. exists t. by destruct t.
  - destruct t as [|c t]; simpl; [done|]. intros [= H].
    destruct (IH _ H) as [post Hpost]. exists post. by rewrite <- Hpost.
Qed.

Lemma guid_match_at_0 (s tok : string) :
  Text.match_guid_here s = Some tok ↔ guid_match_at s 0 tok.
Proof.
  unfold Text.match_guid_here, guid_match_at. split.
  - destruct (Text.startswith s "guid: ") eqn:Hs; [|done].
    apply startswith_spec in Hs as [t ->].
    change (String.substring 6 32 ("guid: " +:+ t)) with (String.substring 0 32 t).
    destruct (_ && _) eqn:Hc; [|done]. intros [= <-].
    apply andb_true_iff in Hc as [Hl%Nat.eqb_eq Hg].
    destruct (substring_0_split _ _ Hl) as [post Hpost].
    exists "", post. by rewrite <- Hpost.
  - intros ([|] & post & -> & Hpre & Hl & Hg); [|done].
    change (String.substring 6 32 ("" +:+ "guid: " +:+ tok +:+ post))
      with (String.substring 0 32 (tok +:+ post)).
    assert (String.substring 0 32 (tok +:+ post) = tok) as ->
      by (rewrite <- Hl; apply substring_0_append).
    assert (Text.startswith ("" +:+ "guid: " +:+ tok +:+ post) "guid: " = true) as ->
      by (apply startswith_spec; eauto).
    by rewrite Hl, Hg.
Qed.

Lemma guid_match_at_S (c : ascii) (s : string) (i : nat) (tok : string) :
  guid_match_at (String c s) (S i) tok ↔ guid_match_at s i tok.
Proof.
  unfold guid_match_at. split.
  - intros ([|x pre] & post & H & Hpre & Hl & Hg); [done|].
    simpl in H, Hpre. injection H as -> ->. exists pre, post. auto with lia.
  - intros (pre & post & -> & <- & Hl & Hg). by exists (String c pre), post.
Qed.

Lemma guid_match_at_empty (i : nat) (tok : string) : ¬ guid_match_at "" i tok.
Proof. by intros ([|] & post & H & _). Qed.

Lemma guid_match_at_inj (s : string) (i : nat) (tok tok' : string) :
  guid_match_at s i tok → guid_match_at s i tok' → tok = tok'.
Proof.
  intros (pre & post & -> & Hpre & Hl & _) (pre' & post' & H & Hpre' & Hl' & _).
  apply append_inj_len in H as [_ H]; [|congruence].
  apply (append_inj_l "guid: ") in H.
  apply append_inj_len in H as [H _]; [done | congruence].
Qed.

(** [re.search] returns the token of the leftmost match. *)
Lemma re_search_guid_first (s : string) (i : nat) (tok : string) :
  first_guid_match s i tok → Text.re_search_guid s = Some tok.
Proof.
  revert i. induction s as [|c s IH]; intros i [Hm Hfirst].
  - by apply guid_match_at_empty in Hm.
  - simpl. destruct (Text.match_guid_here (String c s)) as [t0|] eqn:H0.
    + apply guid_match_at_0 in H0. destruct i as [|i].
      * f_equal. eapply guid_match_at_inj; eauto.
      * exfalso. apply (Hfirst 0 t0); [lia | done].
    + destruct i as [|i].
      * apply guid_match_at_0 in Hm. congruence.
      * apply (IH i). split; [by apply guid_match_at_S in Hm|].
        intros j tok' Hj Hm'. apply (Hfirst (S j) tok'); [lia|].
        by apply guid_match_at_S.
Qed.

Lemma re_search_guid_none (s : string) :
  (∀ i tok, ¬ guid_match_at s i tok) → Text.re_search_guid s = None.
Proof.
  induction s as [|c s IH]; intros Hno; simpl.
  - done.
  - destruct (Text.match_guid_here (String c s)) as [t0|] eqn:H0.
    + apply guid_match_at_0 in H0. by apply Hno in H0.
    + apply IH. intros i tok Hm. apply (Hno (S i) tok). by apply guid_match_at_S.
Qed.

(** What [re.search] returns is the token of the leftmost match. *)
Lemma re_search_guid_sound (s tok : string) :
  Text.re_search_guid s = Some tok → ∃ i, first_guid_match s i tok.
Proof.
  induction s as [|c s IH]; simpl.
  - done.
  - destruct (Text.match_guid_here (String c s)) as [t0|] eqn:H0.
    + intros [= ->]. exists 0. split; [by apply guid_match_at_0 | lia].
    + intros [i [Hm Hfirst]]%IH. exists (S i). split; [by apply guid_match_at_S|].
      intros [|j] tok' Hj Hm'.
      * apply guid_match_at_0 in Hm'. congruence.
      * apply guid_match_at_S in Hm'. apply (Hfirst j tok'); [lia | done].
Qed.

End text_lemmas.

(** ** The filesystem: lookups and the walk *)

Section filesystem_lemmas.

Lemma open_text_Ok (fs : node) (p : path) (d : fdata) :
  open_text fs p = Ok d ↔ lookup_node fs p = Some (File d) ∧ can_open d = true.
Proof.
  unfold open_text. destruct (lookup_node fs p) as [[d'|es]|].
  - destruct (can_open d') eqn:Hc.
    + split; [by intros [= ->] | by intros [[= ->] _]].
    + split; [done | intros [[= ->] ?]; congruence].
  - split; [done | by intros [[=] _]].
  - split; [done | by intros [[=] _]].
Qed.

Lemma lookup_node_app (n : node) (p q : path) :
  lookup_node n (p ++ q) =
  match lookup_node n p with Some m => lookup_node m q | None => None end.
Proof.
  revert n. induction p as [|c p IH]; intros n; simpl; [done|].
  destruct n as [d|es]; [done|]. destruct (entry c es); [apply IH | done].
Qed.

(** A path that resolves lies in a directory, under its own name. *)
Lemma lookup_node_snoc (fs : node) (root : path) (name : string) (x : node) :
  lookup_node fs (root ++ [name]) = Some x →
  ∃ es, lookup_node fs root = Some (Dir es) ∧ entry name es = Some x.
Proof.
  rewrite lookup_node_app. destruct (lookup_node fs root) as [[d|es]|]; simpl; try done.
  destruct (entry name es) eqn:He; [|done]. intros [= ->]. eauto.
Qed.

Lemma entry_elem_of (name : string) (es : list (string * node)) (x : node) :
  entry name es = Some x → (name, x) ∈ es.
Proof.
  induction es as [|[n y] es IH]; simpl; [done|].
  destruct (String.eqb n name) eqn:E.
  - apply String.eqb_eq in E as ->. intros [= ->]. left.
  - intros H. right. auto.
Qed.

Lemma entry_filenames (name : string) (es : list (string * node)) (d : fdata) :
  entry name es = Some (File d) → name ∈ filenames es.
Proof.
  intros H%entry_elem_of. unfold filenames.
  apply list_elem_of_fmap. exists (name, File d). split; [done|].
  by apply list_elem_of_filter.
Qed.

(** The walk lists every directory below its top. *)
Lemma walk_node_complete (top rel : path) (n : node) (es : list (string * node)) :
  lookup_node n rel = Some (Dir es) →
  (top ++ rel, dirnames es, filenames es) ∈ walk_node top n.
Proof.
  revert top n. induction rel as [|c rel IH]; intros top n; simpl.
  - intros [= ->]. rewrite app_nil_r. simpl. left.
  - destruct n as [d|es0]; [done|]. destruct (entry c es0) as [x|] eqn:He; [|done].
    intros H. simpl. right. apply list_elem_of_In, in_flat_map.
    exists (c, x). split; [by apply list_elem_of_In, entry_elem_of|].
    apply list_elem_of_In. simpl. rewrite (app_assoc top [c] rel : top ++ c :: rel = _).
    by apply IH.
Qed.

Lemma os_walk_complete (fs : node) (top rel : path) (es : list (string * node)) :
  lookup_node fs (top ++ rel) = Some (Dir es) →
  (top ++ rel, dirnames es, filenames es) ∈ os_walk fs top.
Proof.
  rewrite lookup_node_app. unfold os_walk.
  destruct (lookup_node fs top) as [n|]; [|done]. apply walk_node_complete.
Qed.

Lemma elem_of_enumerated (fs : node) (dir_path root : path) (file : string) :
  (root, file) ∈ enumerated fs dir_path ↔
  ∃ dirs files, (root, dirs, files) ∈ os_walk fs dir_path ∧ file ∈ files.
Proof.
  unfold enumerated. rewrite list_elem_of_In, in_flat_map. split.
  - intros ([[r ds] fl] & Hw & Hin). apply list_elem_of_In, list_elem_of_fmap in Hin
      as (f & [= -> ->] & Hf). exists ds, fl. by rewrite list_elem_of_In.
  - intros (ds & fl & Hw & Hf). exists (root, ds, fl). split; [by apply list_elem_of_In|].
    apply list_elem_of_In, list_elem_of_fmap. eauto.
Qed.

End filesystem_lemmas.

(** ** The candidate index *)

Section index_lemmas.

Context (fs : node).


Lemma check_meta_recorded (root : path) (acc : gmap string path) (file : string) :
  check_meta fs root acc file =
  match recorded fs root file with
  | Some (guid, asset_path) => <[guid := asset_path]> acc
  | None => acc
  end.
Proof.
  unfold check_meta, recorded. destruct (Text.endswith file ".meta"); [|done].
  simpl. destruct (_ && _); [|done]. by destruct (get_guid_from_meta _ _).
Qed.

Lemma recorded_inv (root : path) (file guid : string) (asset_path : path) :
  recorded fs root file = Some (guid, asset_path) →
  Text.endswith file ".meta" = true
  ∧ asset_path = root ++ [Text.drop_last 5 file]
  ∧ os_path_exists fs asset_path = true
  ∧ os_path_isdir fs asset_path = false
  ∧ get_guid_from_meta fs (root ++ [file]) = Some guid.
Proof.
  unfold recorded. destruct (Text.endswith file ".meta"); [|done]. simpl.
  destruct (os_path_exists _ _) eqn:He; [|done].
  destruct (os_path_isdir _ _) eqn:Hd; [done|]. simpl.
  destruct (get_guid_from_meta _ _) eqn:Hg; [|done]. by intros [= <- <-].
Qed.

(** An asset has one sidecar, and so one identifier. *)
Lemma recorded_asset_inj (r r' : path) (f f' g g' : string) (p : path) :
  recorded fs r f = Some (g, p) → recorded fs r' f' = Some (g', p) → g = g'.
Proof.
  intros (Hf & Hp & _ & _ & Hg)%recorded_inv (Hf' & Hp' & _ & _ & Hg')%recorded_inv.
  rewrite Hp in Hp'. apply app_inj_tail in Hp' as [<- Hstem].
  apply endswith_meta_stem in Hf, Hf'. rewrite Hstem in Hf. rewrite <- Hf' in Hf.
  subst f'. congruence.
Qed.

Lemma fold_left_flat_map {A B C : Type} (f : A → C → A) (g : B → list C)
    (l : list B) (a : A) :
  fold_left f (flat_map g l) a = fold_left (λ a x, fold_left f (g x) a) l a.
Proof.
  revert a. induction l as [|x l IH]; intros a; simpl; [done|].
  by rewrite fold_left_app, IH.
Qed.

Lemma fold_left_fmap {A B C : Type} (f : A → C → A) (g : B → C) (l : list B) (a : A) :
  fold_left f (g <$> l) a = fold_left (λ a x, f a (g x)) l a.
Proof. revert a. induction l as [|x l IH]; intros a; simpl; [done | apply IH]. Qed.

Lemma fold_left_ext_eq {A B : Type} (f g : A → B → A) (l : list B) (a : A) :
  (∀ a x, f a x = g a x) → fold_left f l a = fold_left g l a.
Proof.
  intros H. revert a. induction l as [|x l IH]; intros a; simpl; [done|].
  by rewrite H, IH.
Qed.

(** The two nested loops are one loop over the enumeration. *)
Lemma find_assets_to_check_enumerated (dir_path : path) :
  find_assets_to_check fs dir_path = fold_left (record_step fs) (enumerated fs dir_path) ∅.
Proof.
  unfold find_assets_to_check, enumerated. rewrite fold_left_flat_map.
  apply fold_left_ext_eq. intros acc [[root ds] files]. simpl.
  by rewrite fold_left_fmap.
Qed.

Lemma record_step_lookup (acc : gmap string path) (rf : path * string) (g : string) :
  record_step fs acc rf !! g =
  match recorded fs (fst rf) (snd rf) with
  | Some (g', p) => if decide (g' = g) then Some p else acc !! g
  | None => acc !! g
  end.
Proof.
  unfold record_step. rewrite check_meta_recorded.
  destruct (recorded _ _ _) as [[g' p]|]; [|done].
  rewrite lookup_insert. by destruct (decide (g' = g)).
Qed.

(** An entry of the index was recorded for one of the files gone through. *)
Lemma fold_record_lookup (l : list (path * string)) (m0 : gmap string path)
    (g : string) (p : path) :
  fold_left (record_step fs) l m0 !! g = Some p →
  m0 !! g = Some p ∨ ∃ r f, (r, f) ∈ l ∧ recorded fs r f = Some (g, p).
Proof.
  revert m0. induction l as [|[r f] l IH]; intros m0; simpl; [auto|].
  intros [H|(r' & f' & Hin & Hrec)]%IH.
  - rewrite record_step_lookup in H. simpl in H.
    destruct (recorded fs r f) as [[g' p']|] eqn:Hrec; [|auto].
    destruct (decide (g' = g)) as [->|]; [|auto].
    injection H as ->. right. exists r, f. split; [left | done].
  - right. exists r', f'. split; [by right | done].
Qed.

(** Files that record nothing for [g] leave its entry alone. *)
Lemma fold_record_other (l : list (path * string)) (m0 : gmap string path) (g : string) :
  (∀ r f a, (r, f) ∈ l → recorded fs r f ≠ Some (g, a)) →
  fold_left (record_step fs) l m0 !! g = m0 !! g.
Proof.
  revert m0. induction l as [|[r f] l IH]; intros m0 Hno; simpl; [done|].
  rewrite IH by (intros r' f' a Hin; apply Hno; by right).
  rewrite record_step_lookup. simpl.
  destruct (recorded fs r f) as [[g' p']|] eqn:Hrec; [|done].
  destruct (decide (g' = g)) as [->|]; [|done].
  exfalso. apply (Hno r f p'); [left | done].
Qed.

(** The last file that records [g] decides its entry. *)
Lemma fold_record_last (l1 l2 : list (path * string)) (r : path) (f : string)
    (m0 : gmap string path) (g : string) (p : path) :
  recorded fs r f = Some (g, p) →
  (∀ r' f' a, (r', f') ∈ l2 → recorded fs r' f' ≠ Some (g, a)) →
  fold_left (record_step fs) (l1 ++ (r, f) :: l2) m0 !! g = Some p.
Proof.
  intros Hrec Hno. rewrite fold_left_app. simpl.
  rewrite fold_record_other by done.
  rewrite record_step_lookup. simpl. rewrite Hrec. by rewrite decide_True.
Qed.

Lemma index_recorded (dir_path : path) (g : string) (p : path) :
  find_assets_to_check fs dir_path !! g = Some p →
  ∃ r f, (r, f) ∈ enumerated fs dir_path ∧ recorded fs r f = Some (g, p).
Proof.
  rewrite find_assets_to_check_enumerated. intros [H|H]%fold_record_lookup; [|done].
  by rewrite lookup_empty in H.
Qed.

(** No asset is filed under two identifiers. *)
Lemma index_values_inj (dir_path : path) (g g' : string) (p : path) :
  find_assets_to_check fs dir_path !! g = Some p →
  find_assets_to_check fs dir_path !! g' = Some p →
  g = g'.
Proof.
  intros (r & f & _ & H)%index_recorded (r' & f' & _ & H')%index_recorded.
  eapply recorded_asset_inj; eauto.
Qed.

Lemma index_values_NoDup (dir_path : path) :
  NoDup (snd <$> map_to_list (find_assets_to_check fs dir_path)).
Proof.
  apply NoDup_fmap_2_strong; [|apply NoDup_map_to_list].
  intros [g p] [g' p'] Hin Hin' Heq. simpl in Heq. subst p'.
  apply elem_of_map_to_list in Hin, Hin'. f_equal. eapply index_values_inj; eauto.
Qed.

End index_lemmas.

(** ** The corpus *)

Section corpus_lemmas.

Context (fs : node).

Lemma collect_searchable_files_enumerated (assets_dir : path) (exts : list string) :
  collect_searchable_files fs assets_dir exts =
  fold_left (collect_step fs (Text.lower <$> exts)) (enumerated fs assets_dir) [].
Proof.
  unfold collect_searchable_files, enumerated. rewrite fold_left_flat_map.
  apply fold_left_ext_eq. intros acc [[root ds] files]. simpl.
  by rewrite fold_left_fmap.
Qed.

Lemma elem_of_fold_collect (lexts : list string) (l : list (path * string))
    (acc : list path) (p : path) :
  p ∈ fold_left (collect_step fs lexts) l acc ↔
  p ∈ acc ∨
  ∃ r f, (r, f) ∈ l ∧ p = r ++ [f]
         ∧ existsb (λ ext, Text.endswith (Text.lower f) ext) lexts = true
         ∧ ∃ d, open_text fs p = Ok d.
Proof.
  revert acc. induction l as [|[r f] l IH]; intros acc; simpl.
  - split; [auto | intros [H|(r & f & H & _)]; [done | by apply elem_of_nil in H]].
  - rewrite IH. unfold collect_step at 1, collect_file. simpl. split.
    + intros [H|(r' & f' & Hin & H)].
      * destruct (existsb _ lexts) eqn:Hx; [|auto].
        destruct (open_text fs (r ++ [f])) as [d|e] eqn:Ho; [|auto].
        apply elem_of_app in H as [H|H]; [auto|].
        apply list_elem_of_singleton in H as ->.
        right. exists r, f. split; [left | eauto].
      * right. exists r', f'. split; [by right | done].
    + intros [H|(r' & f' & Hin & -> & Hx & d & Ho)].
      * left. destruct (existsb _ lexts); [|done].
        destruct (open_text fs (r ++ [f])); [|done]. apply elem_of_app. auto.
      * apply elem_of_cons in Hin as [[= -> ->]|Hin].
        -- left. rewrite Hx, Ho. apply elem_of_app. right. left.
        -- right. exists r', f'. eauto.
Qed.

(** A file is collected exactly when the walk lists it, its name ends with
    one of the extensions and it can be opened. *)
Lemma elem_of_collect_searchable_files (assets_dir : path) (exts : list string) (p : path) :
  p ∈ collect_searchable_files fs assets_dir exts ↔
  ∃ r f, (r, f) ∈ enumerated fs assets_dir ∧ p = r ++ [f]
         ∧ has_extension exts p = true
         ∧ ∃ d, open_text fs p = Ok d.
Proof.
  rewrite collect_searchable_files_enumerated, elem_of_fold_collect. split.
  - intros [H|(r & f & Hin & -> & Hx & Ho)]; [by apply elem_of_nil in H|].
    exists r, f. unfold has_extension. by rewrite last_snoc.
  - intros (r & f & Hin & -> & Hx & Ho). right. exists r, f.
    unfold has_extension in Hx. by rewrite last_snoc in Hx.
Qed.

(** Every regular file below [assets_dir] that has one of the extensions and
    can be opened is collected, whatever its bytes are. *)
Lemma collect_searchable_files_complete (assets_dir rel : path) (name : string)
    (exts : list string) (d : fdata) :
  lookup_node fs (assets_dir ++ rel ++ [name]) = Some (File d) →
  can_open d = true →
  has_extension exts (assets_dir ++ rel ++ [name]) = true →
  assets_dir ++ rel ++ [name] ∈ collect_searchable_files fs assets_dir exts.
Proof.
  intros Hl Hopen Hext. apply elem_of_collect_searchable_files.
  exists (assets_dir ++ rel), name. rewrite <- app_assoc. split_and!; [|done..|].
  - rewrite app_assoc in Hl. apply lookup_node_snoc in Hl as (es & Hdir & He).
    apply elem_of_enumerated. exists (dirnames es), (filenames es).
    split; [by apply os_walk_complete | by eapply entry_filenames].
  - exists d. unfold open_text. by rewrite Hl, Hopen.
Qed.

End corpus_lemmas.

(** ** The search for one identifier *)

Section search_lemmas.

Context (fs : node).

Lemma mentions_b_spec (guid : string) (f : path) :
  mentions_b fs guid f = true ↔ mentions fs guid f.
Proof.
  unfold mentions_b, mentions. split.
  - destruct (open_text fs f) as [d|e]; [|done].
    destruct (read_all d) as [content|e] eqn:Hr; [|done].
    intros H%contains_spec. eauto.
  - intros (d & content & -> & -> & H). by apply contains_spec.
Qed.

Lemma unreadable_mentions_b (guid : string) (f : path) :
  unreadable fs f → mentions_b fs guid f = false.
Proof.
  unfold mentions_b. intros [[e ->]|(d & e & -> & ->)]; done.
Qed.

Lemma search_files_cons (guid : string) (f : path) (rest : list path) :
  search_files fs guid (f :: rest) =
  if mentions_b fs guid f then (true, [f])
  else (fst (search_files fs guid rest), f :: snd (search_files fs guid rest)).
Proof.
  unfold mentions_b. simpl. destruct (open_text fs f) as [d|e]; [|done].
  by destruct (read_all d).
Qed.

(** The search stops at the first file that mentions the identifier. *)
Lemma search_files_first (guid : string) (before : list path) (f : path)
    (after : list path) :
  (∀ f', f' ∈ before → ¬ mentions fs guid f') →
  mentions fs guid f →
  search_files fs guid (before ++ f :: after) = (true, before ++ [f]).
Proof.
  intros Hno Hf. induction before as [|f0 before IH].
  - simpl app. rewrite search_files_cons.
    by apply mentions_b_spec in Hf as ->.
  - rewrite <- !app_comm_cons, search_files_cons.
    destruct (mentions_b fs guid f0) eqn:H0.
    + exfalso. apply (Hno f0); [left | by apply mentions_b_spec].
    + rewrite IH; [done|]. intros f' Hin. apply Hno. by right.
Qed.

(** A search without a match has opened every file. *)
Lemma search_files_exhausted (guid : string) (files : list path) :
  fst (search_files fs guid files) = false →
  snd (search_files fs guid files) = files ∧ ∀ f, f ∈ files → ¬ mentions fs guid f.
Proof.
  induction files as [|f files IH]; [by split; [|intros f Hin%elem_of_nil]|].
  rewrite search_files_cons. destruct (mentions_b fs guid f) eqn:Hf; [done|].
  simpl. intros [Htr Hno]%IH. split; [by rewrite Htr|].
  intros f' [->|Hin]%elem_of_cons; [|auto].
  rewrite <- mentions_b_spec. congruence.
Qed.

Lemma search_files_found_iff (guid : string) (files : list path) :
  fst (search_files fs guid files) = true ↔ ∃ f, f ∈ files ∧ mentions fs guid f.
Proof.
  induction files as [|f files IH].
  - split; [done | by intros (f & H%elem_of_nil & _)].
  - rewrite search_files_cons. destruct (mentions_b fs guid f) eqn:Hf; simpl.
    + split; [|done]. intros _. exists f. split; [left | by apply mentions_b_spec].
    + rewrite IH. split.
      * intros (f' & Hin & Hm). exists f'. split; [by right | done].
      * intros (f' & [->|Hin]%elem_of_cons & Hm); [|eauto].
        apply mentions_b_spec in Hm. congruence.
Qed.

(** A file that cannot be read is passed over. *)
Lemma search_files_skip (guid : string) (before : list path) (f : path)
    (after : list path) :
  unreadable fs f →
  fst (search_files fs guid (before ++ f :: after)) =
  fst (search_files fs guid (before ++ after)).
Proof.
  intros Hf. induction before as [|f0 before IH].
  - simpl app. rewrite search_files_cons. by rewrite unreadable_mentions_b.
  - rewrite <- !app_comm_cons, !search_files_cons.
    destruct (mentions_b fs guid f0); [done | apply IH].
Qed.

End search_lemmas.

(** ** The run of [main] *)

Section main_lemmas.

Context (fs : node).

Lemma find_references_to_guid_eq (guid : string) (files : list path) (asset_path : path) :
  find_references_to_guid fs (guid, files, asset_path) =
  (asset_path, fst (search_files fs guid files)).
Proof. done. Qed.

Lemma unused_of_acc (results : list (path * bool)) (acc : list path) :
  fold_left (λ unused_assets r,
               if negb (snd r) then unused_assets ++ [fst r] else unused_assets)
            results acc
  = acc ++ (fst <$> filter (λ r, snd r = false) results).
Proof.
  revert acc. induction results as [|[a b] results IH]; intros acc.
  - simpl. by rewrite app_nil_r.
  - cbn [fold_left]. rewrite IH. destruct b; cbn [negb snd fst].
    + by rewrite filter_cons_False by done.
    + rewrite filter_cons_True by done. by rewrite fmap_cons, <- app_assoc.
Qed.

(** The unused assets are the assets of the results that are not found. *)
Lemma unused_of_filter (results : list (path * bool)) :
  unused_of results = fst <$> filter (λ r, snd r = false) results.
Proof. unfold unused_of. by rewrite unused_of_acc. Qed.

Lemma unused_of_search_args (items : list (string * path)) (files : list path) :
  unused_of (find_references_to_guid fs <$>
               ((λ item, (fst item, files, snd item)) <$> items))
  = snd <$> filter (λ item, fst (search_files fs (fst item) files) = false) items.
Proof.
  rewrite unused_of_filter. induction items as [|[g p] items IH]; [done|].
  rewrite !fmap_cons, find_references_to_guid_eq. simpl fst; simpl snd.
  destruct (fst (search_files fs g files)) eqn:Hg.
  - rewrite !filter_cons_False by (simpl; congruence). apply IH.
  - rewrite !filter_cons_True by done. rewrite !fmap_cons, IH. done.
Qed.

(** Whatever the order of completion, the unused assets are, up to their
    order, the assets of the index whose identifier the search does not
    find. *)
Lemma main_report (args : cli_args) (unused : list path) :
  main fs args (Report unused) →
  ∃ assets_dir,
    find_assets_dir fs (arg_dir args) = Ok assets_dir
    ∧ unused ≡ₚ
        snd <$> filter
          (λ item, fst (search_files fs (fst item)
                          (collect_searchable_files fs assets_dir (arg_extensions args)))
                   = false)
          (map_to_list (find_assets_to_check fs (arg_dir args))).
Proof.
  unfold main. destruct (_ || _); [done|]. destruct (negb _); [done|].
  destruct (find_assets_dir fs (arg_dir args)) as [assets_dir|e]; [|done].
  intros (results & Hperm & [= ->]). exists assets_dir. split; [done|].
  unfold imap_unordered in Hperm. rewrite <- unused_of_search_args.
  rewrite !unused_of_filter. by rewrite <- Hperm.
Qed.

Lemma main_in_order_run (args : cli_args) : main fs args (main_in_order fs args).
Proof.
  unfold main, main_in_order. destruct (_ || _); [done|]. destruct (negb _); [done|].
  destruct (find_assets_dir fs (arg_dir args)) as [assets_dir|e]; [|done].
  eexists. split; [|done]. unfold imap_unordered. done.
Qed.

Lemma elem_of_unused (args : cli_args) (assets_dir : path) (unused : list path) (p : path) :
  main fs args (Report unused) →
  find_assets_dir fs (arg_dir args) = Ok assets_dir →
  p ∈ unused ↔
  ∃ g, find_assets_to_check fs (arg_dir args) !! g = Some p
       ∧ fst (search_files fs g
                (collect_searchable_files fs assets_dir (arg_extensions args))) = false.
Proof.
  intros (assets_dir' & Hdir & Hperm)%main_report Hdir'.
  rewrite Hdir' in Hdir. injection Hdir as <-.
  rewrite Hperm, list_elem_of_fmap. split.
  - intros ([g p'] & -> & [Hnf Hin%elem_of_map_to_list]%list_elem_of_filter). eauto.
  - intros (g & Hin & Hnf). exists (g, p). split; [done|].
    apply list_elem_of_filter. split; [done | by apply elem_of_map_to_list].
Qed.

Lemma unused_NoDup (args : cli_args) (unused : list path) :
  main fs args (Report unused) → NoDup unused.
Proof.
  intros (assets_dir & _ & Hperm)%main_report. rewrite Hperm.
  eapply sublist_NoDup; [apply index_values_NoDup|].
  apply fmap_sublist, sublist_filter.
Qed.

(** An asset whose identifier the search finds is not reported. *)
Lemma found_not_unused (args : cli_args) (assets_dir : path) (unused : list path)
    (guid : string) (asset_path : path) :
  main fs args (Report unused) →
  find_assets_dir fs (arg_dir args) = Ok assets_dir →
  find_assets_to_check fs (arg_dir args) !! guid = Some asset_path →
  fst (search_files fs guid
         (collect_searchable_files fs assets_dir (arg_extensions args))) = true →
  asset_path ∉ unused.
Proof.
  intros Hmain Hdir Hidx Hf.
  rewrite (elem_of_unused args assets_dir unused asset_path Hmain Hdir).
  intros (g & Hg & Hnf).
  assert (g = guid) as -> by (eapply index_values_inj; eauto).
  congruence.
Qed.

(** In a list without repetition of keys, one element has a given key. *)
Lemma filter_key_length_1 {A B : Type} `{EqDecision B} (f : A → B) (l : list A) (x : A) :
  NoDup (f <$> l) → x ∈ l → List.length (filter (λ y, f y = f x) l) = 1.
Proof.
  induction l as [|y l IH]; [by intros _ ?%elem_of_nil|].
  rewrite fmap_cons, NoDup_cons. intros [Hy Hnd] [->|Hin]%elem_of_cons.
  - rewrite filter_cons_True by done. simpl. f_equal.
    destruct (filter (λ y0, f y0 = f y) l) as [|z k] eqn:Hf; [done|].
    assert (z ∈ filter (λ y0, f y0 = f y) l) as [Hz Hzl]%list_elem_of_filter
      by (rewrite Hf; left).
    exfalso. apply Hy. rewrite <- Hz. by apply list_elem_of_fmap_2.
  - rewrite filter_cons_False; [by apply IH|].
    intros Hyx. apply Hy. rewrite Hyx. by apply list_elem_of_fmap_2.
Qed.

End main_lemmas.

(** ** The project locator *)

Section locator_lemmas.

Context (fs : node).

(** What the loop of [find_assets_dir] returns: [Assets] inside the nearest
    directory that has one, the filesystem root not counted. *)
Lemma find_assets_dir_from_Ok (rcurrent : list string) (p : path) :
  find_assets_dir_from fs rcurrent = Ok p ↔
  ∃ inner outer,
    rcurrent = inner ++ outer ∧ outer ≠ []
    ∧ p = rev outer ++ ["Assets"]
    ∧ os_path_isdir fs p = true
    ∧ ∀ inner1 inner2, inner = inner1 ++ inner2 → inner2 ≠ [] →
        os_path_isdir fs (rev (inner2 ++ outer) ++ ["Assets"]) = false.
Proof.
  induction rcurrent as [|c rparent IH].
  - split; [done|]. intros (inner & outer & H & Hne & _).
    symmetry in H. by apply app_eq_nil in H as [_ ->].
  - cbn [find_assets_dir_from].
    destruct (os_path_isdir fs (rev (c :: rparent) ++ ["Assets"])) eqn:Hd.
    + split.
      * intros [= <-]. exists [], (c :: rparent). split_and!; try done.
        intros [|] [|] ?; done.
      * intros ([|c' inner] & outer & H & Hne & -> & Hp & Hfirst).
        -- simpl in H. by subst outer.
        -- injection H as <- ->. specialize (Hfirst [] (c :: inner) eq_refl).
           rewrite <- app_comm_cons in Hfirst. rewrite Hd in Hfirst.
           by discriminate Hfirst.
    + rewrite IH. split.
      * intros (inner & outer & -> & Hne & -> & Hp & Hfirst).
        exists (c :: inner), outer. split_and!; try done.
        intros [|c1 inner1] inner2 Heq Hne2.
        -- simpl in Heq. subst inner2. by rewrite <- app_comm_cons.
        -- injection Heq as -> ->. by eapply Hfirst.
      * intros ([|c' inner] & outer & H & Hne & -> & Hp & Hfirst).
        -- simpl in H. subst outer. congruence.
        -- injection H as <- ->. exists inner, outer. split_and!; try done.
           intros inner1 inner2 -> Hne2. by apply (Hfirst (c :: inner1) inner2).
Qed.

(** The loop gives up exactly when no directory from the start up to, and
    not including, the filesystem root has an [Assets] directory. *)
Lemma find_assets_dir_from_Raise (rcurrent : list string) (e : exn) :
  find_assets_dir_from fs rcurrent = Raise e ↔
  e = FileNotFoundError
  ∧ ∀ inner outer, rcurrent = inner ++ outer → outer ≠ [] →
      os_path_isdir fs (rev outer ++ ["Assets"]) = false.
Proof.
  induction rcurrent as [|c rparent IH].
  - simpl. split.
    + intros [= <-]. split; [done|]. intros inner outer H.
      symmetry in H. by apply app_eq_nil in H as [_ ->].
    + by intros [-> _].
  - cbn [find_assets_dir_from].
    destruct (os_path_isdir fs (rev (c :: rparent) ++ ["Assets"])) eqn:Hd.
    + split; [done|]. intros [_ H]. specialize (H [] (c :: rparent) eq_refl).
      rewrite Hd in H. by discriminate H.
    + rewrite IH. split.
      * intros [-> H]. split; [done|]. intros [|c' inner] outer Heq Hne.
        -- simpl in Heq. by subst outer.
        -- injection Heq as <- ->. by eapply H.
      * intros [-> H]. split; [done|]. intros inner outer -> Hne.
        by apply (H (c :: inner) outer).
Qed.

Lemma find_assets_dir_isdir (start_path p : path) :
  find_assets_dir fs start_path = Ok p → os_path_isdir fs p = true.
Proof.
  unfold find_assets_dir. by intros (_ & _ & _ & _ & _ & H & _)%find_assets_dir_from_Ok.
Qed.

(** [find_assets_dir] raises exactly when no directory on the way from the
    start up to the filesystem root, the root itself left out, has an
    [Assets] directory. *)
Lemma find_assets_dir_Raise (start_path : path) (e : exn) :
  find_assets_dir fs start_path = Raise e ↔
  e = FileNotFoundError
  ∧ ∀ anc, anc `prefix_of` start_path → anc ≠ [] →
      os_path_isdir fs (anc ++ ["Assets"]) = false.
Proof.
  unfold find_assets_dir. rewrite find_assets_dir_from_Raise. split.
  - intros [-> H]. split; [done|]. intros anc [k ->] Hne.
    rewrite <- (rev_involutive anc). apply (H (rev k)).
    + by rewrite rev_app_distr.
    + intros Hr. apply Hne. by rewrite <- (rev_involutive anc), Hr.
  - intros [-> H]. split; [done|]. intros inner outer Heq Hne.
    apply H.
    + exists (rev inner). by rewrite <- rev_app_distr, <- Heq, rev_involutive.
    + intros Hr. apply Hne. by rewrite <- (rev_involutive outer), Hr.
Qed.

End locator_lemmas.

(** ** The scenarios of the specification *)

(** Scenario A: [bar.mat] is referenced from [foo.prefab], nothing refers to
    [foo.prefab]. *)
Example scenario_A_report : main_in_order scenario_A args_A = Report [foo_prefab].
Proof. vm_compute. reflexivity. Qed.

(** Scenario B: without sidecars the index is empty and so is the report. *)
Example scenario_B_report :
  find_assets_to_check project_in_root ["Assets"] = ∅
  ∧ main_in_order (Dir [("proj", project_in_root)]) args_A = Report [].
Proof. split; vm_compute; reflexivity. Qed.

(** Scenario C: with the extensions [[.mat]] the file [foo.prefab] is not
    searched, and [bar.mat] is reported although [foo.prefab] holds its
    identifier. *)
Example scenario_C_report :
  collect_searchable_files scenario_A assets_A [".mat"] = [bar_mat]
  ∧ ∀ unused, main scenario_A (mk_args assets_A 8 [".mat"]) (Report unused) →
              bar_mat ∈ unused.
Proof.
  split; [reflexivity|]. intros unused Hmain.
  apply (elem_of_unused scenario_A _ assets_A unused bar_mat Hmain eq_refl).
  exists guid_b. split; vm_compute; reflexivity.
Qed.

(** Scenario D: a file with a corpus extension that does not decode gives no
    match and stops nothing; the candidate next to it is reported. *)
Example scenario_D_report :
  main_in_order
    (Dir [("proj", Dir [("Assets", Dir
       [("lightmap.asset", binary_file);
        ("bar.mat", text_file "Material");
        ("bar.mat.meta", text_file (meta_text guid_b))])])])
    args_A
  = Report [bar_mat].
Proof. vm_compute. reflexivity. Qed.

(** The run in which the results arrive in the order of submission reports
    [unused]. *)
Ltac run_in_order :=
  match goal with
  | |- main ?fs ?args (Report ?unused) =>
      assert (main_in_order fs args = Report unused) as <- by (vm_compute; reflexivity);
      apply main_in_order_run
  end.

(** ** The properties of the specification *)

(** C1.  A candidate whose identifier occurs in the text of a corpus file
    that can be read is found by the search, and its asset is not among
    the unused assets that [main] reports, whatever the order in which the
    searches complete. *)
Theorem referenced_asset_not_reported
    (fs : node) (args : cli_args) (assets_dir : path) (unused : list path)
    (guid : string) (asset_path : path) :
  main fs args (Report unused) →
  find_assets_dir fs (arg_dir args) = Ok assets_dir →
  find_assets_to_check fs (arg_dir args) !! guid = Some asset_path →
  (∃ f, f ∈ collect_searchable_files fs assets_dir (arg_extensions args)
        ∧ mentions fs guid f) →
  find_references_to_guid fs
    (guid, collect_searchable_files fs assets_dir (arg_extensions args), asset_path)
  = (asset_path, true)
  ∧ asset_path ∉ unused.
Proof.
  intros Hmain Hdir Hidx Hf. apply search_files_found_iff in Hf.
  split; [by rewrite find_references_to_guid_eq, Hf|].
  by eapply found_not_unused.
Qed.

Lemma referenced_asset_not_reported_witness :
  find_references_to_guid scenario_A
    (guid_b, collect_searchable_files scenario_A assets_A DEFAULT_EXTENSIONS_TO_CHECK, bar_mat)
  = (bar_mat, true)
  ∧ bar_mat ∉ [foo_prefab].
Proof.
  apply (referenced_asset_not_reported scenario_A args_A assets_A [foo_prefab] guid_b bar_mat).
  - run_in_order.
  - reflexivity.
  - vm_compute. reflexivity.
  - exists foo_prefab. split.
    + vm_compute. left.
    + eexists _, _. split_and!; [reflexivity | reflexivity |].
      apply contains_spec. reflexivity.
Defined.

(** C2.  A candidate whose identifier occurs in the text of no corpus file
    is not found by the search, and its asset occurs exactly once among the
    unused assets that [main] reports. *)
Theorem unreferenced_asset_reported_once
    (fs : node) (args : cli_args) (assets_dir : path) (unused : list path)
    (guid : string) (asset_path : path) :
  main fs args (Report unused) →
  find_assets_dir fs (arg_dir args) = Ok assets_dir →
  find_assets_to_check fs (arg_dir args) !! guid = Some asset_path →
  (∀ f, f ∈ collect_searchable_files fs assets_dir (arg_extensions args) →
        ¬ mentions fs guid f) →
  find_references_to_guid fs
    (guid, collect_searchable_files fs assets_dir (arg_extensions args), asset_path)
  = (asset_path, false)
  ∧ List.length (filter (λ a, a = asset_path) unused) = 1.
Proof.
  intros Hmain Hdir Hidx Hno.
  assert (fst (search_files fs guid
                 (collect_searchable_files fs assets_dir (arg_extensions args))) = false)
    as Hnf.
  { apply not_true_is_false. intros (f & Hin & Hm)%search_files_found_iff.
    by apply (Hno f). }
  split; [by rewrite find_references_to_guid_eq, Hnf|].
  apply (filter_key_length_1 id).
  - rewrite list_fmap_id. by eapply unused_NoDup.
  - rewrite (elem_of_unused fs args assets_dir unused asset_path Hmain Hdir). eauto.
Qed.

Lemma unreferenced_asset_reported_once_witness :
  find_references_to_guid scenario_A
    (guid_a, collect_searchable_files scenario_A assets_A DEFAULT_EXTENSIONS_TO_CHECK,
     foo_prefab)
  = (foo_prefab, false)
  ∧ List.length (filter (λ a, a = foo_prefab) [foo_prefab]) = 1.
Proof.
  apply (unreferenced_asset_reported_once scenario_A args_A assets_A [foo_prefab]
           guid_a foo_prefab).
  - run_in_order.
  - reflexivity.
  - vm_compute. reflexivity.
  - intros f Hin Hm. apply mentions_b_spec in Hm.
    assert (collect_searchable_files scenario_A assets_A (arg_extensions args_A)
            = [foo_prefab; bar_mat]) as Hc by (vm_compute; reflexivity).
    rewrite Hc in Hin.
    apply elem_of_cons in Hin as [->|Hin]; [by vm_compute in Hm|].
    apply list_elem_of_singleton in Hin as ->. by vm_compute in Hm.
Defined.

(** C8.  Two runs of [main] on the same tree and arguments report the same
    unused assets: the two lists are permutations of one another, and so
    have the same members, whatever the orders of completion were. *)
Theorem result_set_idempotent
    (fs : node) (args : cli_args) (unused1 unused2 : list path) :
  main fs args (Report unused1) →
  main fs args (Report unused2) →
  unused1 ≡ₚ unused2 ∧ ∀ a, a ∈ unused1 ↔ a ∈ unused2.
Proof.
  intros (d1 & Hd1 & H1)%main_report (d2 & Hd2 & H2)%main_report.
  rewrite Hd1 in Hd2. injection Hd2 as <-.
  assert (unused1 ≡ₚ unused2) as Hperm by (by rewrite H1, H2).
  split; [done|]. intros a. by rewrite Hperm.
Qed.

Lemma result_set_idempotent_witness :
  [x_mat; y_mat] ≡ₚ [y_mat; x_mat] ∧ ∀ a, a ∈ [x_mat; y_mat] ↔ a ∈ [y_mat; x_mat].
Proof.
  apply (result_set_idempotent two_unused args_A).
  - run_in_order.
  - vm_compute. exists [(y_mat, false); (x_mat, false)].
    split; [apply Permutation_swap | reflexivity].
Defined.

(** C5.  When two sidecars of the enumeration declare the same identifier,
    and no later sidecar declares it, the index has exactly one entry for
    the identifier, and the entry is the asset of the later of the two. *)
Theorem duplicate_identifier_last_wins
    (fs : node) (dir_path : path)
    (before between after : list (path * string))
    (r1 r2 : path) (f1 f2 : string) (guid : string) (a1 a2 : path) :
  enumerated fs dir_path = before ++ (r1, f1) :: between ++ (r2, f2) :: after →
  recorded fs r1 f1 = Some (guid, a1) →
  recorded fs r2 f2 = Some (guid, a2) →
  (∀ r f a, (r, f) ∈ after → recorded fs r f ≠ Some (guid, a)) →
  find_assets_to_check fs dir_path !! guid = Some a2
  ∧ List.length (filter (λ item, fst item = guid)
                   (map_to_list (find_assets_to_check fs dir_path))) = 1.
Proof.
  intros Henum _ H2 Hafter.
  assert (find_assets_to_check fs dir_path !! guid = Some a2) as Hidx.
  { rewrite find_assets_to_check_enumerated, Henum.
    rewrite (app_assoc before ((r1, f1) :: between) ((r2, f2) :: after)
               : before ++ (r1, f1) :: between ++ (r2, f2) :: after = _).
    by apply fold_record_last. }
  split; [done|].
  apply (filter_key_length_1 fst _ (guid, a2)).
  - apply NoDup_fst_map_to_list.
  - by apply elem_of_map_to_list.
Qed.

Lemma duplicate_identifier_last_wins_witness :
  find_assets_to_check duplicate_guids assets_A !! guid_a = Some b_mat
  ∧ List.length (filter (λ item, fst item = guid_a)
                   (map_to_list (find_assets_to_check duplicate_guids assets_A))) = 1.
Proof.
  apply (duplicate_identifier_last_wins duplicate_guids assets_A
           [(assets_A, "a.mat")] [(assets_A, "b.mat")] []
           assets_A assets_A "a.mat.meta" "b.mat.meta" guid_a a_mat b_mat).
  - reflexivity.
  - reflexivity.
  - reflexivity.
  - intros r f a Hin. by apply elem_of_nil in Hin.
Defined.

(** C6.  The search for one identifier stops at the first corpus file that
    mentions it, having opened the files up to that one and no other, and
    answers (asset, true); it answers (asset, false) only after opening every
    file of the list, none of which mentions the identifier; and a file that
    cannot be opened or read counts as a file without a match, so that the
    answer is the one for the list without it. *)
Theorem search_short_circuits_and_skips_errors
    (fs : node) (guid : string) (asset_path : path) :
  (∀ before f after,
     (∀ f', f' ∈ before → ¬ mentions fs guid f') →
     mentions fs guid f →
     find_references_to_guid_traced fs (guid, before ++ f :: after, asset_path)
     = ((asset_path, true), before ++ [f]))
  ∧ (∀ files,
       find_references_to_guid fs (guid, files, asset_path) = (asset_path, false) →
       snd (find_references_to_guid_traced fs (guid, files, asset_path)) = files
       ∧ ∀ f, f ∈ files → ¬ mentions fs guid f)
  ∧ (∀ before f after,
       unreadable fs f →
       find_references_to_guid fs (guid, before ++ f :: after, asset_path)
       = find_references_to_guid fs (guid, before ++ after, asset_path)).
Proof.
  split_and!.
  - intros before f after Hno Hf. unfold find_references_to_guid_traced.
    by rewrite search_files_first.
  - intros files. rewrite find_references_to_guid_eq. intros [= Hnf].
    by apply search_files_exhausted.
  - intros before f after Hf. rewrite !find_references_to_guid_eq.
    by rewrite search_files_skip.
Qed.

Lemma search_short_circuits_and_skips_errors_witness :
  find_references_to_guid_traced mixed_corpus
    (guid_b, [lightmap] ++ foo_prefab :: [bar_mat], bar_mat)
  = ((bar_mat, true), [lightmap] ++ [foo_prefab])
  ∧ find_references_to_guid mixed_corpus
      (guid_b, [] ++ lightmap :: [foo_prefab; bar_mat], bar_mat)
    = find_references_to_guid mixed_corpus (guid_b, [] ++ [foo_prefab; bar_mat], bar_mat).
Proof.
  destruct (search_short_circuits_and_skips_errors mixed_corpus guid_b bar_mat)
    as (Hfirst & _ & Hskip).
  split.
  - apply Hfirst.
    + intros f' Hin Hm. apply list_elem_of_singleton in Hin as ->.
      apply mentions_b_spec in Hm. by vm_compute in Hm.
    + apply mentions_b_spec. reflexivity.
  - apply Hskip. right. eexists _, _. split; reflexivity.
Defined.

(** C7.  For a sidecar that can be read: the identifier extracted is the
    token, 32 characters of [a-f0-9], of the leftmost match of the pattern
    [guid: <token>] in its text; and if the text has no match, no
    identifier is extracted and no entry of the index is the asset of this
    sidecar. *)
Theorem guid_is_token_of_first_match
    (fs : node) (root : path) (file : string) (d : fdata) (content : string) :
  Text.endswith file ".meta" = true →
  open_text fs (root ++ [file]) = Ok d →
  read_all d = Ok content →
  (∀ i tok,
     first_guid_match content i tok →
     get_guid_from_meta fs (root ++ [file]) = Some tok
     ∧ String.length tok = 32
     ∧ Text.all_guid_chars tok = true)
  ∧ ((∀ i tok, ¬ guid_match_at content i tok) →
     get_guid_from_meta fs (root ++ [file]) = None
     ∧ ∀ dir_path guid,
         find_assets_to_check fs dir_path !! guid
         ≠ Some (root ++ [Text.drop_last 5 file])).
Proof.
  intros Hmeta Hopen Hread.
  assert (get_guid_from_meta fs (root ++ [file]) = Text.re_search_guid content) as Hget
    by (unfold get_guid_from_meta; by rewrite Hopen, Hread).
  split.
  - intros i tok Hfirst. rewrite Hget. split; [by eapply re_search_guid_first|].
    by destruct Hfirst as [(pre & post & _ & _ & Hl & Hg) _].
  - intros Hno. rewrite Hget, re_search_guid_none by done. split; [done|].
    intros dir_path guid (r & f & _ & Hrec)%index_recorded.
    apply recorded_inv in Hrec as (Hf & Hp & _ & _ & Hg).
    apply app_inj_tail in Hp as [<- Hstem].
    apply endswith_meta_stem in Hmeta, Hf. rewrite Hstem, <- Hf in Hmeta. subst f.
    rewrite Hget, re_search_guid_none in Hg by done. done.
Qed.

Lemma guid_is_token_of_first_match_witness :
  get_guid_from_meta scenario_A (assets_A ++ ["foo.prefab.meta"]) = Some guid_a
  ∧ String.length guid_a = 32
  ∧ Text.all_guid_chars guid_a = true.
Proof.
  destruct (re_search_guid_sound (meta_text guid_a) guid_a eq_refl) as [i Hi].
  exact (proj1 (guid_is_token_of_first_match scenario_A assets_A "foo.prefab.meta"
                  (mk_fdata true (Some (meta_text guid_a))) (meta_text guid_a)
                  eq_refl eq_refl eq_refl) i guid_a Hi).
Defined.

(** C9.  An asset path that the index holds exists and is no directory; a
    path that does not exist, or is a directory, is the entry of no
    identifier; and an entry that one turn of the loop writes passes the
    two tests in that turn. *)
Theorem indexed_asset_is_existing_file
    (fs : node) (dir_path : path) (asset_path : path) :
  (∀ guid,
     find_assets_to_check fs dir_path !! guid = Some asset_path →
     os_path_exists fs asset_path = true ∧ os_path_isdir fs asset_path = false)
  ∧ (os_path_exists fs asset_path = false ∨ os_path_isdir fs asset_path = true →
     ∀ guid, find_assets_to_check fs dir_path !! guid ≠ Some asset_path)
  ∧ (∀ root acc file guid,
       check_meta fs root acc file !! guid = Some asset_path →
       acc !! guid ≠ Some asset_path →
       os_path_exists fs asset_path = true ∧ os_path_isdir fs asset_path = false).
Proof.
  assert (∀ guid, find_assets_to_check fs dir_path !! guid = Some asset_path →
            os_path_exists fs asset_path = true ∧ os_path_isdir fs asset_path = false)
    as Hidx.
  { intros guid (r & f & _ & Hrec)%index_recorded.
    by apply recorded_inv in Hrec as (_ & _ & He & Hd & _). }
  split_and!; [done | |].
  - intros Hbad guid [He Hd]%Hidx. destruct Hbad; congruence.
  - intros root acc file guid H Hacc.
    change (record_step fs acc (root, file) !! guid = Some asset_path) in H.
    rewrite record_step_lookup in H. simpl in H.
    destruct (recorded fs root file) as [[g' p']|] eqn:Hrec; [|done].
    destruct (decide (g' = guid)) as [->|]; [|done]. injection H as ->.
    by apply recorded_inv in Hrec as (_ & _ & He & Hd & _).
Qed.

Lemma indexed_asset_is_existing_file_witness :
  os_path_exists scenario_A foo_prefab = true ∧ os_path_isdir scenario_A foo_prefab = false.
Proof.
  apply (proj1 (indexed_asset_is_existing_file scenario_A assets_A foo_prefab) guid_a).
  vm_compute. reflexivity.
Defined.

(** C3.  [collect_searchable_files] opens a selected file and does not read
    it.  On a tree whose only file has a corpus extension and bytes that are
    not UTF-8, so that reading it raises [UnicodeDecodeError], the list
    returned holds that file: it is not excluded from the corpus. *)
Theorem binary_file_is_collected :
  open_text binary_asset lightmap = Ok (mk_fdata true None)
  ∧ read_all (mk_fdata true None) = Raise UnicodeDecodeError
  ∧ collect_searchable_files binary_asset assets_A DEFAULT_EXTENSIONS_TO_CHECK = [lightmap].
Proof. split_and!; reflexivity. Qed.

(** C4.  The loop of [find_assets_dir] ends when it reaches the filesystem
    root, without looking into it.  With [/Assets] a directory, the search
    from [/] and the search from [/home] both raise [FileNotFoundError]. *)
Theorem assets_in_root_not_found :
  os_path_isdir project_in_root ([] ++ ["Assets"]) = true
  ∧ find_assets_dir project_in_root [] = Raise FileNotFoundError
  ∧ find_assets_dir project_in_root ["home"] = Raise FileNotFoundError.
Proof. split_and!; reflexivity. Qed.

(** C10, as stated, fails.  With [-d /proj], the candidate
    [/proj/Extra/self.mat] has the extension [.mat], decodes as text and
    holds its own identifier; the corpus is collected below [/proj/Assets]
    and does not hold the file, and every run reports the asset as unused. *)
Lemma own_file_outside_assets_is_reported :
  find_assets_dir asset_outside_assets (arg_dir args_proj) = Ok assets_A
  ∧ find_assets_to_check asset_outside_assets (arg_dir args_proj) !! guid_a
    = Some self_outside
  ∧ has_extension (arg_extensions args_proj) self_outside = true
  ∧ mentions asset_outside_assets guid_a self_outside
  ∧ (self_outside ∉ collect_searchable_files asset_outside_assets assets_A
                      (arg_extensions args_proj))
  ∧ (∀ unused, main asset_outside_assets args_proj (Report unused) →
               self_outside ∈ unused).
Proof.
  assert (collect_searchable_files asset_outside_assets assets_A
            (arg_extensions args_proj) = []) as Hcorpus by (vm_compute; reflexivity).
  split_and!.
  - reflexivity.
  - vm_compute. reflexivity.
  - reflexivity.
  - apply mentions_b_spec. reflexivity.
  - rewrite Hcorpus. apply not_elem_of_nil.
  - intros unused Hmain.
    apply (elem_of_unused asset_outside_assets args_proj assets_A unused self_outside
             Hmain eq_refl).
    exists guid_a. split; [vm_compute; reflexivity|]. by rewrite Hcorpus.
Qed.

(** C10, amended.  A candidate that lies below the [Assets] directory that
    [find_assets_dir] returns, whose file name has one of the extensions and
    which decodes as text, is a file of the corpus; and if its text holds
    its own identifier, it is not among the unused assets. *)
Theorem own_file_under_assets_is_searched
    (fs : node) (args : cli_args) (assets_dir : path) (unused : list path)
    (guid : string) (asset_path : path) (d : fdata) (content : string) :
  main fs args (Report unused) →
  find_assets_dir fs (arg_dir args) = Ok assets_dir →
  find_assets_to_check fs (arg_dir args) !! guid = Some asset_path →
  assets_dir `prefix_of` asset_path →
  has_extension (arg_extensions args) asset_path = true →
  open_text fs asset_path = Ok d →
  read_all d = Ok content →
  asset_path ∈ collect_searchable_files fs assets_dir (arg_extensions args)
  ∧ (occurs guid content → asset_path ∉ unused).
Proof.
  intros Hmain Hdir Hidx [k Hk] Hext Hopen Hread.
  assert (asset_path ∈ collect_searchable_files fs assets_dir (arg_extensions args))
    as Hin.
  { pose proof Hopen as [Hfile Hcan]%open_text_Ok.
    destruct k as [|x k _] using rev_ind.
    - rewrite app_nil_r in Hk. subst asset_path.
      apply find_assets_dir_isdir in Hdir. unfold os_path_isdir in Hdir.
      by rewrite Hfile in Hdir.
    - subst asset_path. by eapply collect_searchable_files_complete. }
  split; [done|]. intros Hocc. eapply found_not_unused; [done..|].
  apply search_files_found_iff. exists asset_path. split; [done|].
  by exists d, content.
Qed.

Lemma own_file_under_assets_is_searched_witness :
  self_inside ∈ collect_searchable_files asset_inside_assets assets_A
                  (arg_extensions args_proj)
  ∧ (occurs guid_a ("self: {guid: " +:+ guid_a +:+ "}" +:+ nl) → self_inside ∉ []).
Proof.
  apply (own_file_under_assets_is_searched asset_inside_assets args_proj assets_A []
           guid_a self_inside (mk_fdata true (Some ("self: {guid: " +:+ guid_a +:+ "}" +:+ nl)))).
  - run_in_order.
  - reflexivity.
  - vm_compute. reflexivity.
  - by exists ["self.mat"].
  - reflexivity.
  - reflexivity.
  - reflexivity.
Defined.

(** * Further properties of the program *)

(** ** The walk, once more *)

Section walk_lemmas.

(** Induction on a tree, with the hypothesis for every entry of a
    directory. *)
Lemma node_nested_ind (P : node → Prop) :
  (∀ d, P (File d)) →
  (∀ es, Forall (λ e, P (snd e)) es → P (Dir es)) →
  ∀ n, P n.
Proof.
  intros Hfile Hdir. fix IH 1. intros [d|es]; [apply Hfile|].
  apply Hdir. induction es as [|[name x] es IHes]; constructor; [apply IH | apply IHes].
Qed.

Lemma files_of_walk_app (l1 l2 : list (path * list string * list string)) :
  files_of_walk (l1 ++ l2) = files_of_walk l1 ++ files_of_walk l2.
Proof. unfold files_of_walk. apply flat_map_app. Qed.

Lemma enumerated_files_of_walk (fs : node) (top : path) :
  enumerated fs top = files_of_walk (os_walk fs top).
Proof. done. Qed.

(** Every directory of a walk lies at or below its top. *)
Lemma walk_node_prefix (n : node) :
  ∀ top w, w ∈ walk_node top n → top `prefix_of` fst (fst w).
Proof.
  induction n as [d|es IH] using node_nested_ind; intros top w; simpl.
  - by intros ?%elem_of_nil.
  - intros [->|Hin]%elem_of_cons; [done|].
    apply list_elem_of_In, in_flat_map in Hin as (e & He & Hw).
    apply list_elem_of_In in He, Hw. rewrite Forall_forall in IH.
    apply (IH e He) in Hw. by eapply prefix_app_l.
Qed.

Lemma files_of_walk_prefix (n : node) (top r : path) (f : string) :
  (r, f) ∈ files_of_walk (walk_node top n) → top `prefix_of` r.
Proof.
  unfold files_of_walk. rewrite list_elem_of_In, in_flat_map.
  intros (w & Hw & Hin). apply list_elem_of_In in Hw, Hin.
  apply list_elem_of_fmap in Hin as (f' & [= -> ->] & _).
  by eapply walk_node_prefix.
Qed.

Lemma enumerated_prefix (fs : node) (top r : path) (f : string) :
  (r, f) ∈ enumerated fs top → top `prefix_of` r.
Proof.
  rewrite enumerated_files_of_walk. unfold os_walk.
  destruct (lookup_node fs top) as [n|]; [apply files_of_walk_prefix|].
  by intros ?%elem_of_nil.
Qed.

Lemma entry_names_unique (name : string) (es : list (string * node)) (x : node) :
  forallb (λ e, names_unique (snd e)) es = true →
  entry name es = Some x → names_unique x = true.
Proof.
  intros Hall He%entry_elem_of. rewrite forallb_forall in Hall.
  by apply (Hall (name, x)), list_elem_of_In.
Qed.

(** The subtrees of a tree without repeated names have none. *)
Lemma lookup_node_names_unique (n : node) (p : path) (x : node) :
  names_unique n = true → lookup_node n p = Some x → names_unique x = true.
Proof.
  revert n. induction p as [|c p IH]; intros n Hn; simpl; [by intros [= <-]|].
  destruct n as [d|es]; [done|]. destruct (entry c es) as [y|] eqn:He; [|done].
  simpl in Hn. apply andb_true_iff in Hn as [_ Hall].
  apply IH. by eapply entry_names_unique.
Qed.

Lemma filenames_NoDup (es : list (string * node)) :
  NoDup (fst <$> es) → NoDup (filenames es).
Proof.
  intros Hnd. unfold filenames. eapply sublist_NoDup; [done|].
  apply fmap_sublist, sublist_filter.
Qed.

Lemma prefix_snoc_inj (top r : path) (c1 c2 : string) :
  top ++ [c1] `prefix_of` r → top ++ [c2] `prefix_of` r → c1 = c2.
Proof.
  intros [k1 ->] [k2 H]. rewrite <- !app_assoc in H.
  apply app_inv_head in H. by injection H.
Qed.

(** In a tree without repeated names the walk lists no file twice. *)
Lemma files_of_walk_NoDup (n : node) :
  names_unique n = true → ∀ top, NoDup (files_of_walk (walk_node top n)).
Proof.
  induction n as [d|es IH] using node_nested_ind; intros Hn top; simpl.
  - constructor.
  - simpl in Hn. apply andb_true_iff in Hn as [Hnames%bool_decide_eq_true Hall].
    change (NoDup (((λ file, (top, file)) <$> filenames es)
                   ++ files_of_walk (flat_map (λ e, walk_node (top ++ [fst e]) (snd e)) es))).
    apply NoDup_app. split_and!.
    + apply NoDup_fmap_2; [by intros f1 f2 [=] | by apply filenames_NoDup].
    + intros [r f] (f' & [= -> ->] & _)%list_elem_of_fmap Hin.
      unfold files_of_walk in Hin.
      apply list_elem_of_In, in_flat_map in Hin as (w & Hw & Hin).
      apply in_flat_map in Hw as (e & He & Hw).
      apply list_elem_of_In in Hw, Hin. destruct w as [[r0 ds] fl].
      apply list_elem_of_fmap in Hin as (f'' & [= <- _] & _).
      apply walk_node_prefix in Hw. by apply prefix_snoc_not in Hw.
    + induction es as [|[c x] es IHes]; [constructor|].
      simpl. rewrite files_of_walk_app.
      apply Forall_cons in IH as [IHx IHrest].
      simpl in Hall. apply andb_true_iff in Hall as [Hx Hrest].
      rewrite fmap_cons in Hnames. apply NoDup_cons in Hnames as [Hc Hnames].
      apply NoDup_app. split_and!.
      * by apply IHx.
      * intros [r f] Hin1 Hin2. apply files_of_walk_prefix in Hin1.
        unfold files_of_walk in Hin2.
        apply list_elem_of_In, in_flat_map in Hin2 as (w & Hw & Hin2).
        apply in_flat_map in Hw as (e & He & Hw).
        apply list_elem_of_In in Hw, Hin2, He. destruct w as [[r0 ds] fl].
        apply list_elem_of_fmap in Hin2 as (f'' & [= <- _] & _).
        apply walk_node_prefix in Hw.
        simpl in Hin1, Hw, Hc. rewrite (prefix_snoc_inj _ _ _ _ Hin1 Hw) in Hc.
        apply Hc. by apply list_elem_of_fmap_2.
      * by apply IHes.
Qed.

Lemma enumerated_NoDup (fs : node) (top : path) :
  names_unique fs = true → NoDup (enumerated fs top).
Proof.
  intros Hfs. rewrite enumerated_files_of_walk. unfold os_walk.
  destruct (lookup_node fs top) as [n|] eqn:Hn; [|constructor].
  apply files_of_walk_NoDup. by eapply lookup_node_names_unique.
Qed.

End walk_lemmas.

(** ** The project locator, further *)

(** X1.  [find_assets_dir] returns [p] exactly when [p] is the [Assets]
    directory of a directory [anc] on the way from the start up to, and not
    including, the filesystem root, and no directory between the start and
    [anc] has an [Assets] directory: the nearest one wins, also one that lies
    inside the start directory itself. *)
Theorem find_assets_dir_nearest (fs : node) (start_path p : path) :
  find_assets_dir fs start_path = Ok p ↔
  ∃ anc rest,
    start_path = anc ++ rest ∧ anc ≠ []
    ∧ p = anc ++ ["Assets"]
    ∧ os_path_isdir fs p = true
    ∧ ∀ rest1 rest2, rest = rest1 ++ rest2 → rest1 ≠ [] →
        os_path_isdir fs ((anc ++ rest1) ++ ["Assets"]) = false.
Proof.
  unfold find_assets_dir. rewrite find_assets_dir_from_Ok. split.
  - intros (inner & outer & Hrev & Hne & -> & Hp & Hfirst).
    exists (rev outer), (rev inner). split_and!; [| |done..|].
    + by rewrite <- rev_app_distr, <- Hrev, rev_involutive.
    + intros H. apply Hne. by rewrite <- (rev_involutive outer), H.
    + intros rest1 rest2 Hrest Hne1.
      rewrite <- (rev_involutive rest1), <- rev_app_distr.
      apply (Hfirst (rev rest2) (rev rest1)).
      * by rewrite <- rev_app_distr, <- Hrest, rev_involutive.
      * intros H. apply Hne1. by rewrite <- (rev_involutive rest1), H.
  - intros (anc & rest & -> & Hne & -> & Hp & Hfirst).
    exists (rev rest), (rev anc). rewrite rev_involutive. split_and!; [| |done..|].
    + apply rev_app_distr.
    + intros H. apply Hne. by rewrite <- (rev_involutive anc), H.
    + intros inner1 inner2 Hinner Hne2.
      rewrite rev_app_distr, rev_involutive.
      apply (Hfirst (rev inner2) (rev inner1)).
      * by rewrite <- rev_app_distr, <- Hinner, rev_involutive.
      * intros H. apply Hne2. by rewrite <- (rev_involutive inner2), H.
Qed.

Lemma find_assets_dir_nearest_witness :
  ∃ anc rest,
    ["proj"; "Assets"] = anc ++ rest ∧ anc ≠ []
    ∧ assets_A = anc ++ ["Assets"]
    ∧ os_path_isdir scenario_A assets_A = true
    ∧ ∀ rest1 rest2, rest = rest1 ++ rest2 → rest1 ≠ [] →
        os_path_isdir scenario_A ((anc ++ rest1) ++ ["Assets"]) = false.
Proof.
  exact (proj1 (find_assets_dir_nearest scenario_A ["proj"; "Assets"] assets_A) eq_refl).
Defined.



(** ** The identifier of a sidecar, further *)

Section guid_lemmas.

Lemma first_guid_match_wf (content : string) (i : nat) (tok : string) :
  first_guid_match content i tok →
  String.length tok = 32 ∧ Text.all_guid_chars tok = true.
Proof. by intros [(pre & post & _ & _ & Hl & Hg) _]. Qed.

Lemma get_guid_from_meta_wf (fs : node) (p : path) (guid : string) :
  get_guid_from_meta fs p = Some guid →
  String.length guid = 32 ∧ Text.all_guid_chars guid = true.
Proof.
  unfold get_guid_from_meta. destruct (open_text fs p) as [d|e]; [|done].
  destruct (read_all d) as [content|e]; [|done].
  intros [i Hi]%re_search_guid_sound. by eapply first_guid_match_wf.
Qed.

End guid_lemmas.

(** X3.  [get_guid_from_meta] returns an identifier exactly when the file
    can be opened, decodes, and the identifier is the token of the leftmost
    match of the pattern in its text; in every other case, a file that is
    missing, a directory, not to be opened or not UTF-8 included, it returns
    [None].  What it returns has 32 characters, all of [a-f0-9]. *)
Theorem get_guid_from_meta_iff (fs : node) (p : path) (guid : string) :
  (get_guid_from_meta fs p = Some guid ↔
   ∃ d content i,
     open_text fs p = Ok d ∧ read_all d = Ok content
     ∧ first_guid_match content i guid)
  ∧ (get_guid_from_meta fs p = Some guid →
     String.length guid = 32 ∧ Text.all_guid_chars guid = true).
Proof.
  split; [|apply get_guid_from_meta_wf].
  unfold get_guid_from_meta. split.
  - destruct (open_text fs p) as [d|e]; [|done].
    destruct (read_all d) as [content|e] eqn:Hr; [|done].
    intros [i Hi]%re_search_guid_sound. by exists d, content, i.
  - intros (d & content & i & -> & -> & Hi). by eapply re_search_guid_first.
Qed.

Lemma get_guid_from_meta_iff_witness :
  String.length guid_b = 32 ∧ Text.all_guid_chars guid_b = true.
Proof.
  apply (proj2 (get_guid_from_meta_iff scenario_A (assets_A ++ ["bar.mat.meta"]) guid_b)).
  reflexivity.
Defined.

(** ** The candidate index, further *)

Section index_more.

Context (fs : node).

(** Where an entry of the index comes from: the map the loop started with,
    or the last file that recorded the identifier. *)
Lemma fold_record_lookup_last (l : list (path * string)) (m0 : gmap string path)
    (g : string) (p : path) :
  fold_left (record_step fs) l m0 !! g = Some p →
  (m0 !! g = Some p ∧ ∀ r f a, (r, f) ∈ l → recorded fs r f ≠ Some (g, a))
  ∨ ∃ l1 r f l2,
      l = l1 ++ (r, f) :: l2 ∧ recorded fs r f = Some (g, p)
      ∧ ∀ r' f' a, (r', f') ∈ l2 → recorded fs r' f' ≠ Some (g, a).
Proof.
  induction l as [|[r f] l IH] using rev_ind.
  - intros H. left. split; [done|]. by intros r f a ?%elem_of_nil.
  - rewrite fold_left_app. simpl. rewrite record_step_lookup. simpl.
    destruct (recorded fs r f) as [[g' p']|] eqn:Hrec.
    + destruct (decide (g' = g)) as [->|Hne].
      * intros [= ->]. right. exists l, r, f, []. split_and!; [done..|].
        by intros r' f' a ?%elem_of_nil.
      * intros [[H0 Hno]|(l1 & r1 & f1 & l2 & -> & Hrec1 & Hno)]%IH.
        -- left. split; [done|]. intros r' f' a [?|Hin]%elem_of_app; [eauto|].
           apply list_elem_of_singleton in Hin as [= -> ->]. congruence.
        -- right. exists l1, r1, f1, (l2 ++ [(r, f)]).
           rewrite <- app_assoc. split_and!; [done..|].
           intros r' f' a [?|Hin]%elem_of_app; [eauto|].
           apply list_elem_of_singleton in Hin as [= -> ->]. congruence.
    + intros [[H0 Hno]|(l1 & r1 & f1 & l2 & -> & Hrec1 & Hno)]%IH.
      * left. split; [done|]. intros r' f' a [?|Hin]%elem_of_app; [eauto|].
        apply list_elem_of_singleton in Hin as [= -> ->]. congruence.
      * right. exists l1, r1, f1, (l2 ++ [(r, f)]).
        rewrite <- app_assoc. split_and!; [done..|].
        intros r' f' a [?|Hin]%elem_of_app; [eauto|].
        apply list_elem_of_singleton in Hin as [= -> ->]. congruence.
Qed.

Lemma fold_record_None (l : list (path * string)) (m0 : gmap string path) (g : string) :
  fold_left (record_step fs) l m0 !! g = None ↔
  m0 !! g = None ∧ ∀ r f a, (r, f) ∈ l → recorded fs r f ≠ Some (g, a).
Proof.
  split.
  - revert m0. induction l as [|[r f] l IH]; intros m0; simpl.
    + intros H. split; [done|]. by intros r f a ?%elem_of_nil.
    + intros [H Hno]%IH. rewrite record_step_lookup in H. simpl in H.
      destruct (recorded fs r f) as [[g' p']|] eqn:Hrec.
      * destruct (decide (g' = g)) as [->|Hne]; [done|]. split; [done|].
        intros r' f' a [[= -> ->]|Hin]%elem_of_cons; [congruence | eauto].
      * split; [done|].
        intros r' f' a [[= -> ->]|Hin]%elem_of_cons; [congruence | eauto].
  - intros [H0 Hno]. by rewrite fold_record_other.
Qed.

Lemma record_step_size (acc : gmap string path) (rf : path * string) :
  (size (record_step fs acc rf) ≤
   size acc + (if Text.endswith (snd rf) ".meta" then 1 else 0))%nat.
Proof.
  unfold record_step, check_meta. destruct (Text.endswith (snd rf) ".meta"); [|lia].
  simpl. destruct (_ && _); [|lia].
  destruct (get_guid_from_meta _ _) as [g|]; [|lia].
  rewrite map_size_insert. destruct (acc !! g); simpl; lia.
Qed.

Lemma fold_record_size (l : list (path * string)) (m0 : gmap string path) :
  (size (fold_left (record_step fs) l m0) ≤
   size m0 + List.length (filter (λ rf, Text.endswith (snd rf) ".meta" = true) l))%nat.
Proof.
  revert m0. induction l as [|rf l IH]; intros m0; simpl; [lia|].
  etrans; [apply IH|]. pose proof (record_step_size m0 rf) as Hs.
  destruct (Text.endswith (snd rf) ".meta") eqn:Hm.
  - rewrite filter_cons_True by done. simpl. lia.
  - rewrite filter_cons_False by congruence. lia.
Qed.

Lemma os_walk_not_dir (top : path) :
  os_path_isdir fs top = false → os_walk fs top = [].
Proof.
  unfold os_path_isdir, os_walk. by destruct (lookup_node fs top) as [[d|es]|].
Qed.

End index_more.

(** X4.  Every entry of the index has its sidecar: the asset is a file name
    [stem] in a directory at or below the directory searched, the walk
    lists [stem.meta] in the same directory, and the identifier that
    [get_guid_from_meta] reads from that sidecar is the key of the entry, 32
    characters of [a-f0-9]. *)
Theorem index_entry_has_sidecar
    (fs : node) (dir_path : path) (guid : string) (asset_path : path) :
  find_assets_to_check fs dir_path !! guid = Some asset_path →
  ∃ root stem,
    asset_path = root ++ [stem]
    ∧ dir_path `prefix_of` root
    ∧ (root, stem +:+ ".meta") ∈ enumerated fs dir_path
    ∧ get_guid_from_meta fs (root ++ [stem +:+ ".meta"]) = Some guid
    ∧ String.length guid = 32
    ∧ Text.all_guid_chars guid = true.
Proof.
  intros (r & f & Hin & Hrec)%index_recorded.
  apply recorded_inv in Hrec as (Hf & -> & _ & _ & Hg).
  apply endswith_meta_stem in Hf. exists r, (Text.drop_last 5 f).
  rewrite <- Hf. pose proof (get_guid_from_meta_wf _ _ _ Hg) as [Hl Hc].
  split_and!; [done | by eapply enumerated_prefix | done..].
Qed.

Lemma index_entry_has_sidecar_witness :
  ∃ root stem,
    bar_mat = root ++ [stem]
    ∧ ["proj"] `prefix_of` root
    ∧ (root, stem +:+ ".meta") ∈ enumerated scenario_A ["proj"]
    ∧ get_guid_from_meta scenario_A (root ++ [stem +:+ ".meta"]) = Some guid_b
    ∧ String.length guid_b = 32
    ∧ Text.all_guid_chars guid_b = true.
Proof.
  apply (index_entry_has_sidecar scenario_A ["proj"] guid_b bar_mat).
  vm_compute. reflexivity.
Defined.

(** X5.  The index holds [asset_path] under [guid] exactly when some file of
    the enumeration records that pair and no later file records anything
    under [guid]; it holds nothing under [guid] exactly when no file of the
    enumeration records anything under it. *)
Theorem index_lookup_iff
    (fs : node) (dir_path : path) (guid : string) (asset_path : path) :
  (find_assets_to_check fs dir_path !! guid = Some asset_path ↔
   ∃ l1 r f l2,
     enumerated fs dir_path = l1 ++ (r, f) :: l2
     ∧ recorded fs r f = Some (guid, asset_path)
     ∧ ∀ r' f' a, (r', f') ∈ l2 → recorded fs r' f' ≠ Some (guid, a))
  ∧ (find_assets_to_check fs dir_path !! guid = None ↔
     ∀ r f a, (r, f) ∈ enumerated fs dir_path → recorded fs r f ≠ Some (guid, a)).
Proof.
  rewrite find_assets_to_check_enumerated. split.
  - split.
    + intros [[H _]|H]%fold_record_lookup_last; [|done].
      by rewrite lookup_empty in H.
    + intros (l1 & r & f & l2 & -> & Hrec & Hno). by apply fold_record_last.
  - rewrite fold_record_None, lookup_empty. split; [by intros [_ H] | by intros H].
Qed.

Lemma index_lookup_iff_witness :
  find_assets_to_check duplicate_guids assets_A !! guid_a = Some b_mat.
Proof.
  apply (proj1 (index_lookup_iff duplicate_guids assets_A guid_a b_mat)).
  exists [(assets_A, "a.mat"); (assets_A, "a.mat.meta"); (assets_A, "b.mat")],
         assets_A, "b.mat.meta", [].
  split_and!; [reflexivity | reflexivity |].
  intros r' f' a Hin. by apply elem_of_nil in Hin.
Defined.

(** X6.  The index has at most as many entries as the walk lists files
    whose name ends with [.meta]. *)
Theorem index_size_bound (fs : node) (dir_path : path) :
  (size (find_assets_to_check fs dir_path) ≤
   List.length (filter (λ rf, Text.endswith (snd rf) ".meta" = true)
                  (enumerated fs dir_path)))%nat.
Proof.
  rewrite find_assets_to_check_enumerated.
  etrans; [apply fold_record_size|]. by rewrite map_size_empty.
Qed.

(** X7.  For a path that is no directory (a file, or nothing at all) the
    walk is empty: [find_assets_to_check] returns the empty index and
    [collect_searchable_files] the empty list, and neither raises. *)
Theorem not_a_directory_yields_nothing
    (fs : node) (top : path) (extensions_to_check : list string) :
  os_path_isdir fs top = false →
  find_assets_to_check fs top = ∅
  ∧ collect_searchable_files fs top extensions_to_check = [].
Proof.
  intros Hwalk%os_walk_not_dir.
  unfold find_assets_to_check, collect_searchable_files. by rewrite Hwalk.
Qed.

Lemma not_a_directory_yields_nothing_witness :
  find_assets_to_check scenario_A foo_prefab = ∅
  ∧ collect_searchable_files scenario_A foo_prefab DEFAULT_EXTENSIONS_TO_CHECK = [].
Proof.
  apply (not_a_directory_yields_nothing scenario_A foo_prefab). reflexivity.
Defined.

(** ** The corpus, further *)

Section corpus_more.

Context (fs : node).

Lemma collect_step_selected (lexts : list string) (acc : list path) (rf : path * string) :
  collect_step fs lexts acc rf =
  if selected fs lexts rf then acc ++ [fst rf ++ [snd rf]] else acc.
Proof.
  unfold collect_step, collect_file, selected.
  destruct (existsb _ lexts); [|done]. simpl.
  by destruct (open_text fs (fst rf ++ [snd rf])).
Qed.

(** The corpus is the enumeration, filtered by the test of the loop body. *)
Lemma fold_collect_filter (lexts : list string) (l : list (path * string))
    (acc : list path) :
  fold_left (collect_step fs lexts) l acc =
  acc ++ ((λ rf, fst rf ++ [snd rf]) <$> filter (λ rf, selected fs lexts rf = true) l).
Proof.
  revert acc. induction l as [|rf l IH]; intros acc; simpl.
  - by rewrite app_nil_r.
  - rewrite IH, collect_step_selected. destruct (selected fs lexts rf) eqn:Hs.
    + rewrite filter_cons_True by done. by rewrite fmap_cons, <- app_assoc.
    + by rewrite filter_cons_False by congruence.
Qed.

Lemma collect_searchable_files_filter (assets_dir : path) (exts : list string) :
  collect_searchable_files fs assets_dir exts =
  (λ rf, fst rf ++ [snd rf])
    <$> filter (λ rf, selected fs (Text.lower <$> exts) rf = true)
          (enumerated fs assets_dir).
Proof. by rewrite collect_searchable_files_enumerated, fold_collect_filter. Qed.



Lemma has_extension_mono (exts1 exts2 : list string) (p : path) :
  (∀ e, e ∈ exts1 → e ∈ exts2) →
  has_extension exts1 p = true → has_extension exts2 p = true.
Proof.
  intros Hsub. unfold has_extension. destruct (last p) as [file|]; [|done].
  rewrite !existsb_exists. intros (e & Hin & He). exists e. split; [|done].
  apply list_elem_of_In, list_elem_of_fmap in Hin as (e0 & -> & Hin).
  apply list_elem_of_In, list_elem_of_fmap_2. auto.
Qed.

End corpus_more.

(** X8.  Every path that [collect_searchable_files] returns is a regular
    file in a directory at or below [assets_dir], listed by the walk; its
    name ends, case-insensitively, with one of the extensions, and it can be
    opened.  No directory and no file from elsewhere is collected. *)
Theorem collected_file_is_sound
    (fs : node) (assets_dir : path) (extensions_to_check : list string) (p : path) :
  p ∈ collect_searchable_files fs assets_dir extensions_to_check →
  ∃ root file d,
    p = root ++ [file]
    ∧ assets_dir `prefix_of` root
    ∧ (root, file) ∈ enumerated fs assets_dir
    ∧ has_extension extensions_to_check p = true
    ∧ lookup_node fs p = Some (File d)
    ∧ can_open d = true.
Proof.
  intros (r & f & Hin & -> & Hext & d & [Hfile Hcan]%open_text_Ok)
    %elem_of_collect_searchable_files.
  exists r, f, d. split_and!; [done | by eapply enumerated_prefix | done..].
Qed.

Lemma collected_file_is_sound_witness :
  ∃ root file d,
    bar_mat = root ++ [file]
    ∧ assets_A `prefix_of` root
    ∧ (root, file) ∈ enumerated scenario_A assets_A
    ∧ has_extension DEFAULT_EXTENSIONS_TO_CHECK bar_mat = true
    ∧ lookup_node scenario_A bar_mat = Some (File d)
    ∧ can_open d = true.
Proof.
  apply (collected_file_is_sound scenario_A assets_A DEFAULT_EXTENSIONS_TO_CHECK bar_mat).
  vm_compute. right. left.
Defined.



(** X10.  A longer list of extensions gives a larger corpus: every file
    collected for a list is collected for any list that holds its
    extensions; and the empty list of extensions gives the empty corpus. *)
Theorem corpus_grows_with_extensions
    (fs : node) (assets_dir : path) (exts1 exts2 : list string) :
  (∀ e, e ∈ exts1 → e ∈ exts2) →
  (∀ p, p ∈ collect_searchable_files fs assets_dir exts1 →
        p ∈ collect_searchable_files fs assets_dir exts2)
  ∧ collect_searchable_files fs assets_dir [] = [].
Proof.
  intros Hsub. split.
  - intros p. rewrite !elem_of_collect_searchable_files.
    intros (r & f & Hin & -> & Hext & Hopen). exists r, f.
    split_and!; [done.. | by eapply has_extension_mono | done].
  - rewrite collect_searchable_files_filter. simpl.
    induction (enumerated fs assets_dir) as [|rf l IH]; [done|].
    by rewrite filter_cons_False.
Qed.

Lemma corpus_grows_with_extensions_witness :
  (∀ p, p ∈ collect_searchable_files scenario_A assets_A [".mat"] →
        p ∈ collect_searchable_files scenario_A assets_A DEFAULT_EXTENSIONS_TO_CHECK)
  ∧ collect_searchable_files scenario_A assets_A [] = [].
Proof.
  apply (corpus_grows_with_extensions scenario_A assets_A [".mat"]
           DEFAULT_EXTENSIONS_TO_CHECK).
  intros e ->%list_elem_of_singleton. vm_compute. right. right. left.
Defined.

(** X11.  In a tree where no directory lists a name twice, the corpus holds
    no path twice: no file is searched more than once for an identifier. *)
Theorem corpus_has_no_duplicates
    (fs : node) (assets_dir : path) (extensions_to_check : list string) :
  names_unique fs = true →
  NoDup (collect_searchable_files fs assets_dir extensions_to_check).
Proof.
  intros Hfs. rewrite collect_searchable_files_filter.
  apply NoDup_fmap_2_strong.
  - intros [r f] [r' f'] _ _ Heq. simpl in Heq.
    by apply app_inj_tail in Heq as [-> ->].
  - apply NoDup_filter. by apply enumerated_NoDup.
Qed.

Lemma corpus_has_no_duplicates_witness :
  NoDup (collect_searchable_files scenario_A assets_A DEFAULT_EXTENSIONS_TO_CHECK).
Proof.
  apply (corpus_has_no_duplicates scenario_A assets_A DEFAULT_EXTENSIONS_TO_CHECK).
  reflexivity.
Defined.

(** ** The search for one identifier, further *)

Section search_more.

Context (fs : node).


(** The files opened are a prefix of the list; a file among them that
    mentions the identifier is the last one; and the answer is [true]
    exactly when the last one mentions it. *)
Lemma search_files_trace (guid : string) (files : list path) :
  snd (search_files fs guid files) `prefix_of` files
  ∧ (∀ f, f ∈ snd (search_files fs guid files) → mentions fs guid f →
          last (snd (search_files fs guid files)) = Some f)
  ∧ (fst (search_files fs guid files) = true ↔
     ∃ f, last (snd (search_files fs guid files)) = Some f ∧ mentions fs guid f).
Proof.
  induction files as [|f0 files (IHp & IHl & IHf)].
  - simpl. split_and!; [done | by intros f ?%elem_of_nil |].
    split; [done | by intros (f & [=] & _)].
  - rewrite search_files_cons. destruct (mentions_b fs guid f0) eqn:H0.
    + apply mentions_b_spec in H0. simpl. split_and!.
      * by apply prefix_cons, prefix_nil.
      * by intros f ->%list_elem_of_singleton _.
      * split; [eauto | done].
    + assert (¬ mentions fs guid f0) as Hn0
        by (rewrite <- mentions_b_spec; congruence).
      cbn [fst snd]. split_and!.
      * by apply prefix_cons.
      * intros f [->|Hin]%elem_of_cons Hm; [done|].
        rewrite last_cons. by rewrite (IHl f Hin Hm).
      * rewrite IHf, last_cons.
        destruct (last (snd (search_files fs guid files))) as [x|] eqn:Hlast.
        -- done.
        -- split; [by intros (f & [=] & _)|]. intros (f & [= <-] & Hm). done.
Qed.

End search_more.



(** X13.  The files that the search opens are the first files of the list,
    in order; among them only the last one can mention the identifier, and
    the answer is [True] exactly when the last file opened mentions it. *)
Theorem search_opens_a_prefix
    (fs : node) (guid : string) (files : list path) (asset_path : path) :
  snd (find_references_to_guid_traced fs (guid, files, asset_path)) `prefix_of` files
  ∧ (∀ f, f ∈ snd (find_references_to_guid_traced fs (guid, files, asset_path)) →
          mentions fs guid f →
          last (snd (find_references_to_guid_traced fs (guid, files, asset_path)))
          = Some f)
  ∧ (find_references_to_guid fs (guid, files, asset_path) = (asset_path, true) ↔
     ∃ f, last (snd (find_references_to_guid_traced fs (guid, files, asset_path)))
          = Some f
          ∧ mentions fs guid f).
Proof.
  destruct (search_files_trace fs guid files) as (Hp & Hl & Hf).
  rewrite find_references_to_guid_eq. cbn [find_references_to_guid_traced snd].
  split_and!; [done..|]. rewrite <- Hf. split; [by intros [= ->] | by intros ->].
Qed.

Lemma search_opens_a_prefix_witness :
  last (snd (find_references_to_guid_traced mixed_corpus
               (guid_b, [lightmap; foo_prefab; bar_mat], bar_mat)))
  = Some foo_prefab.
Proof.
  apply (proj1 (proj2 (search_opens_a_prefix mixed_corpus guid_b
                         [lightmap; foo_prefab; bar_mat] bar_mat))).
  - vm_compute. right. left.
  - apply mentions_b_spec. reflexivity.
Defined.

(** ** The run of [main], further *)

Section main_more.

Context (fs : node).

Lemma find_assets_dir_Ok_anc (start_path p : path) :
  find_assets_dir fs start_path = Ok p →
  ∃ anc, anc `prefix_of` start_path ∧ anc ≠ []
         ∧ os_path_isdir fs (anc ++ ["Assets"]) = true.
Proof.
  unfold find_assets_dir.
  intros (inner & outer & Hrev & Hne & -> & Hp & _)%find_assets_dir_from_Ok.
  exists (rev outer). split_and!; [| |done].
  - exists (rev inner). by rewrite <- rev_app_distr, <- Hrev, rev_involutive.
  - intros H. apply Hne. by rewrite <- (rev_involutive outer), H.
Qed.

(** A reported asset is an asset of the index. *)
Lemma unused_in_index (args : cli_args) (unused : list path) (p : path) :
  main fs args (Report unused) → p ∈ unused →
  ∃ g, find_assets_to_check fs (arg_dir args) !! g = Some p.
Proof.
  intros Hmain Hin. destruct (main_report fs args unused Hmain) as (assets_dir & Hdir & _).
  destruct (proj1 (elem_of_unused fs args assets_dir unused p Hmain Hdir) Hin)
    as (g & Hg & _). eauto.
Qed.

End main_more.

(** X14.  What a run of [main] ends with, and in which order the arguments
    are checked: a number of processes outside 1..32 ends the run first,
    whatever the directory is; then a path that is no directory; then the
    failure to find an [Assets] directory on the way up from the directory;
    otherwise the run ends with a report. *)
Theorem main_outcome_cases (fs : node) (args : cli_args) (out : outcome) :
  main fs args out →
  (out = InvalidProcesses ↔
   (arg_processes args < 1 ∨ 32 < arg_processes args)%Z)
  ∧ (out = InvalidDirectory ↔
     (1 ≤ arg_processes args ≤ 32)%Z ∧ os_path_isdir fs (arg_dir args) = false)
  ∧ (out = RootNotFound ↔
     (1 ≤ arg_processes args ≤ 32)%Z ∧ os_path_isdir fs (arg_dir args) = true
     ∧ ∀ anc, anc `prefix_of` arg_dir args → anc ≠ [] →
              os_path_isdir fs (anc ++ ["Assets"]) = false)
  ∧ ((∃ unused, out = Report unused) ↔
     (1 ≤ arg_processes args ≤ 32)%Z ∧ os_path_isdir fs (arg_dir args) = true
     ∧ ∃ anc, anc `prefix_of` arg_dir args ∧ anc ≠ []
              ∧ os_path_isdir fs (anc ++ ["Assets"]) = true).
Proof.
  unfold main. destruct (_ || _) eqn:Hp.
  { apply orb_true_iff in Hp. rewrite !Z.ltb_lt in Hp. intros ->. split_and!.
    - done.
    - split; [done | intros [? _]; lia].
    - split; [done | intros [? _]; lia].
    - split; [by intros [? [=]] | intros [? _]; lia]. }
  apply orb_false_iff in Hp as [Hp1%Z.ltb_ge Hp2%Z.ltb_ge].
  destruct (os_path_isdir fs (arg_dir args)) eqn:Hd; simpl.
  2:{ intros ->. split_and!.
      - split; [done | intros [?|?]; lia].
      - split; [intros _; split; [lia | done] | done].
      - split; [done | by intros (_ & [=] & _)].
      - split; [by intros [? [=]] | by intros (_ & [=] & _)]. }
  destruct (find_assets_dir fs (arg_dir args)) as [assets_dir|e] eqn:Hres.
  - apply find_assets_dir_Ok_anc in Hres as Hanc.
    intros (results & _ & ->). split_and!.
    + split; [done | intros [?|?]; lia].
    + split; [done | by intros (_ & [=])].
    + split; [done|]. intros (_ & _ & Hno). destruct Hanc as (anc & Hpre & Hne & Hdir).
      rewrite (Hno anc Hpre Hne) in Hdir. done.
    + split; [|eauto]. intros _. split_and!; [lia | lia | done | done].
  - apply find_assets_dir_Raise in Hres as [_ Hno]. intros ->. split_and!.
    + split; [done | intros [?|?]; lia].
    + split; [done | by intros (_ & [=])].
    + split; [|done]. intros _. split_and!; [lia | lia | done | done].
    + split; [by intros [? [=]]|]. intros (_ & _ & anc & Hpre & Hne & Hdir).
      rewrite (Hno anc Hpre Hne) in Hdir. done.
Qed.

Lemma main_outcome_cases_witness :
  ∃ unused, main_in_order scenario_A args_A = Report unused.
Proof.
  apply (main_outcome_cases scenario_A args_A (main_in_order scenario_A args_A)
           (main_in_order_run scenario_A args_A)).
  split_and!; [done | done | reflexivity |].
  exists ["proj"]. split_and!; [by exists ["Assets"] | done | reflexivity].
Defined.

(** X15.  Every asset that [main] reports is recorded in the index, lies
    below the directory given with [-d], exists and is no directory; and the
    report has at most as many assets as the index has entries. *)
Theorem reported_assets_are_candidates
    (fs : node) (args : cli_args) (unused : list path) :
  main fs args (Report unused) →
  (∀ p, p ∈ unused →
        (∃ guid, find_assets_to_check fs (arg_dir args) !! guid = Some p)
        ∧ arg_dir args `prefix_of` p
        ∧ os_path_exists fs p = true
        ∧ os_path_isdir fs p = false)
  ∧ (List.length unused ≤ size (find_assets_to_check fs (arg_dir args)))%nat.
Proof.
  intros Hmain. split.
  - intros p Hin. destruct (unused_in_index fs args unused p Hmain Hin) as [g Hg].
    split; [eauto|].
    apply index_recorded in Hg as (r & f & Henum & Hrec).
    apply recorded_inv in Hrec as (_ & -> & He & Hd & _).
    split_and!; [|done..]. apply prefix_app_r. by eapply enumerated_prefix.
  - apply main_report in Hmain as (assets_dir & _ & Hperm).
    rewrite Hperm, length_fmap, <- length_map_to_list.
    apply sublist_length, sublist_filter.
Qed.

Lemma reported_assets_are_candidates_witness :
  (∀ p, p ∈ [foo_prefab] →
        (∃ guid, find_assets_to_check scenario_A (arg_dir args_A) !! guid = Some p)
        ∧ arg_dir args_A `prefix_of` p
        ∧ os_path_exists scenario_A p = true
        ∧ os_path_isdir scenario_A p = false)
  ∧ (List.length [foo_prefab] ≤ size (find_assets_to_check scenario_A (arg_dir args_A)))%nat.
Proof.
  apply (reported_assets_are_candidates scenario_A args_A [foo_prefab]).
  run_in_order.
Defined.

(** X16.  More extensions, fewer reports: of two runs on the same tree and
    directory, the second with a list of extensions that holds those of the
    first, every asset that the second reports the first reports too. *)
Theorem report_shrinks_with_extensions
    (fs : node) (dir_path : path) (n1 n2 : Z) (exts1 exts2 : list string)
    (unused1 unused2 : list path) :
  main fs (mk_args dir_path n1 exts1) (Report unused1) →
  main fs (mk_args dir_path n2 exts2) (Report unused2) →
  (∀ e, e ∈ exts1 → e ∈ exts2) →
  ∀ p, p ∈ unused2 → p ∈ unused1.
Proof.
  intros Hmain1 Hmain2 Hsub p.
  pose proof Hmain1 as (assets_dir & Hdir & _)%main_report.
  rewrite (elem_of_unused fs _ assets_dir unused1 p Hmain1 Hdir).
  rewrite (elem_of_unused fs _ assets_dir unused2 p Hmain2 Hdir). simpl.
  intros (g & Hg & Hnf). exists g. split; [done|].
  apply not_true_is_false. intros (f & Hin & Hm)%search_files_found_iff.
  apply not_true_iff_false in Hnf. apply Hnf, search_files_found_iff.
  exists f. split; [|done]. revert Hin. rewrite !elem_of_collect_searchable_files.
  intros (r & f' & Hin & -> & Hext & Hopen). exists r, f'.
  split_and!; [done.. | by eapply has_extension_mono | done].
Qed.

Lemma report_shrinks_with_extensions_witness :
  foo_prefab ∈ [foo_prefab; bar_mat].
Proof.
  apply (report_shrinks_with_extensions scenario_A assets_A 8 8
           [".mat"] DEFAULT_EXTENSIONS_TO_CHECK [foo_prefab; bar_mat] [foo_prefab]).
  - run_in_order.
  - run_in_order.
  - intros e ->%list_elem_of_singleton. vm_compute. right. right. left.
  - left.
Defined.

(** X17.  With an empty corpus every candidate is reported: the unused
    assets are, up to their order, all the assets of the index. *)
Theorem empty_corpus_reports_every_candidate
    (fs : node) (args : cli_args) (assets_dir : path) (unused : list path) :
  main fs args (Report unused) →
  find_assets_dir fs (arg_dir args) = Ok assets_dir →
  collect_searchable_files fs assets_dir (arg_extensions args) = [] →
  unused ≡ₚ snd <$> map_to_list (find_assets_to_check fs (arg_dir args)).
Proof.
  intros (assets_dir' & Hdir & Hperm)%main_report Hdir' Hempty.
  rewrite Hdir' in Hdir. injection Hdir as <-. rewrite Hperm, Hempty. simpl.
  clear Hperm. induction (map_to_list _) as [|item l IH]; [done|].
  rewrite filter_cons_True by done. rewrite !fmap_cons. by f_equiv.
Qed.

Lemma empty_corpus_reports_every_candidate_witness :
  [self_outside] ≡ₚ snd <$> map_to_list (find_assets_to_check asset_outside_assets
                                           (arg_dir args_proj)).
Proof.
  apply (empty_corpus_reports_every_candidate asset_outside_assets args_proj assets_A).
  - run_in_order.
  - reflexivity.
  - reflexivity.
Defined.

(** ** Stability of the locator and of the index *)

Section stability_lemmas.

Context (fs : node).

(** A result that is not deeper than [tail] is also the result of the loop
    started at [tail]. *)
Lemma find_assets_dir_from_drop (inner tail : list string) (p : path) :
  find_assets_dir_from fs (inner ++ tail) = Ok p →
  (List.length p ≤ S (List.length tail))%nat →
  find_assets_dir_from fs tail = Ok p.
Proof.
  induction inner as [|c inner IH]; [done|].
  rewrite <- app_comm_cons. cbn [find_assets_dir_from].
  destruct (os_path_isdir fs _); [|done].
  intros [= <-]. rewrite !length_app, length_rev. simpl. rewrite length_app. lia.
Qed.

(** Some file of [l] records something under [g] exactly when the loop
    leaves an entry under [g]. *)
Lemma fold_record_is_Some (l : list (path * string)) (g : string) :
  is_Some (fold_left (record_step fs) l ∅ !! g) ↔
  ∃ r f a, (r, f) ∈ l ∧ recorded fs r f = Some (g, a).
Proof.
  split.
  - intros [p [H|H]%fold_record_lookup]; [by rewrite lookup_empty in H|].
    destruct H as (r & f & Hin & Hrec). eauto.
  - intros (r & f & a & Hin & Hrec).
    destruct (fold_left (record_step fs) l ∅ !! g) as [p|] eqn:Hl; [eauto|].
    apply fold_record_None in Hl as [_ Hno]. by apply Hno in Hrec.
Qed.

End stability_lemmas.

(** X18.  The answer of [find_assets_dir] is the same from every directory
    between the one whose [Assets] it returns and the start: if the search
    from [anc/rest1/rest2] returns [anc/Assets], so does the search from
    [anc/rest1]. *)
Theorem find_assets_dir_stable_on_the_way
    (fs : node) (anc rest1 rest2 : path) :
  find_assets_dir fs (anc ++ rest1 ++ rest2) = Ok (anc ++ ["Assets"]) →
  find_assets_dir fs (anc ++ rest1) = Ok (anc ++ ["Assets"]).
Proof.
  unfold find_assets_dir.
  rewrite (app_assoc anc rest1 rest2), (rev_app_distr (anc ++ rest1) rest2).
  intros H. apply find_assets_dir_from_drop in H; [done|].
  rewrite length_rev, !length_app. simpl. lia.
Qed.

Lemma find_assets_dir_stable_on_the_way_witness :
  find_assets_dir scenario_A (["proj"] ++ ["Assets"]) = Ok (["proj"] ++ ["Assets"]).
Proof.
  apply (find_assets_dir_stable_on_the_way scenario_A ["proj"] ["Assets"] ["foo.prefab"]).
  reflexivity.
Defined.

(** X19.  When no identifier is recorded for two different assets, the
    index does not depend on the order of the enumeration: the loop run
    over any rearrangement of the files gives the index that
    [find_assets_to_check] returns. *)
Theorem index_independent_of_order
    (fs : node) (dir_path : path) (l : list (path * string)) :
  l ≡ₚ enumerated fs dir_path →
  (∀ r1 f1 r2 f2 g a1 a2,
     (r1, f1) ∈ l → (r2, f2) ∈ l →
     recorded fs r1 f1 = Some (g, a1) → recorded fs r2 f2 = Some (g, a2) →
     a1 = a2) →
  fold_left (record_step fs) l ∅ = find_assets_to_check fs dir_path.
Proof.
  intros Hperm Huniq. rewrite find_assets_to_check_enumerated.
  assert (∀ l1 l2 : list (path * string), l1 ≡ₚ l → l2 ≡ₚ l → ∀ g p,
            fold_left (record_step fs) l1 ∅ !! g = Some p →
            fold_left (record_step fs) l2 ∅ !! g = Some p) as Hstep.
  { intros l1 l2 H1 H2 g p Hl.
    pose proof Hl as [H|(r & f & Hin & Hrec)]%fold_record_lookup;
      [by rewrite lookup_empty in H|].
    assert (is_Some (fold_left (record_step fs) l2 ∅ !! g)) as [p' Hp'].
    { apply fold_record_is_Some. exists r, f, p. split; [|done].
      by rewrite H2, <- H1. }
    rewrite Hp'. f_equal.
    apply fold_record_lookup in Hp' as [H|(r' & f' & Hin' & Hrec')];
      [by rewrite lookup_empty in H|].
    apply (Huniq r' f' r f g p' p); [by rewrite <- H2 | by rewrite <- H1 | done..]. }
  apply map_eq. intros g.
  destruct (fold_left (record_step fs) l ∅ !! g) as [p|] eqn:H1.
  - symmetry. by apply (Hstep l (enumerated fs dir_path)).
  - destruct (fold_left (record_step fs) (enumerated fs dir_path) ∅ !! g) as [p|] eqn:H2;
      [|done].
    apply (Hstep (enumerated fs dir_path) l) in H2; [congruence | done..].
Qed.

Lemma index_independent_of_order_witness :
  fold_left (record_step scenario_A)
    [(assets_A, "bar.mat.meta"); (assets_A, "bar.mat");
     (assets_A, "foo.prefab.meta"); (assets_A, "foo.prefab")] ∅
  = find_assets_to_check scenario_A assets_A.
Proof.
  apply (index_independent_of_order scenario_A assets_A).
  - change (enumerated scenario_A assets_A)
      with [(assets_A, "foo.prefab"); (assets_A, "foo.prefab.meta");
            (assets_A, "bar.mat"); (assets_A, "bar.mat.meta")].
    symmetry.
    apply (Permutation_rev [(assets_A, "foo.prefab"); (assets_A, "foo.prefab.meta");
                            (assets_A, "bar.mat"); (assets_A, "bar.mat.meta")]).
  - intros r1 f1 r2 f2 g a1 a2 H1 H2.
    repeat (apply elem_of_cons in H1 as [[= -> ->]|H1]);
      [..|by apply elem_of_nil in H1];
      (repeat (apply elem_of_cons in H2 as [[= -> ->]|H2]);
       [..|by apply elem_of_nil in H2]);
      vm_compute; congruence.
Defined.
